(** * ggshield: the git-patch-to-scannable-unit pipeline

    A shallow embedding of [ggshield/scan/scannable.py],
    [ggshield/cmd/iac/scan/prepush.py] and
    [ggshield/iac/output/iac_json_output_handler.py], with the properties
    of the specification stated over it.

    Python [str] values are sequences of Unicode code points; exceptions
    are values of an error type threaded through a small result monad;
    generators are pairs of the items yielded and the way the iteration
    ended. *)

From Stdlib Require Import String Ascii NArith ZArith List Lia.
From Stdlib Require Import DecimalString HexadecimalString.
From stdpp Require Import base tactics option list.

Local Open Scope list_scope.

(** ** Python strings *)

(** A [str] is a list of code points (0 .. 0x10FFFF). *)
Abbreviation pystr := (list N).

(** String literals of the source, written in ASCII. *)
Definition lit (s : string) : pystr :=
  List.map N_of_ascii (list_ascii_of_string s).

Definition NUL : N := 0%N.
Definition LF : N := 10%N.
Definition SPACE : N := 32%N.
Definition COLON : N := 58%N.

(** [c in s] for a one-character [c]. *)
Definition char_in (c : N) (s : pystr) : bool := existsb (N.eqb c) s.

(** [s.startswith(p)] *)
Fixpoint startswith (p s : pystr) : bool :=
  match p, s with
  | [], _ => true
  | _ :: _, [] => false
  | a :: p', b :: s' => N.eqb a b && startswith p' s'
  end.

(** [s.find(sub)]: the lowest index where [sub] occurs, if any. *)
Fixpoint str_find (sub s : pystr) : option nat :=
  if startswith sub s then Some 0
  else match s with
       | [] => None
       | _ :: s' => S <$> str_find sub s'
       end.

(** [s.rstrip(chars)]: drop the longest suffix made of characters of
    [chars]. *)
Definition rstrip (chars : pystr) (s : pystr) : pystr :=
  foldr (fun c acc =>
           match acc with
           | [] => if char_in c chars then [] else [c]
           | _ :: _ => c :: acc
           end) [] s.

(** [s.split(sep)] for a one-character separator: every occurrence
    cuts, so the result always has at least one field. *)
Fixpoint split_char (sep : N) (s : pystr) : list pystr :=
  match s with
  | [] => [[]]
  | c :: s' =>
      if N.eqb c sep then [] :: split_char sep s'
      else match split_char sep s' with
           | f :: fs => (c :: f) :: fs
           | [] => [[c]]
           end
  end.

(** [s.split(sep, 1)]: cut at the first occurrence of [sep] only. *)
Definition split_once (sep s : pystr) : list pystr :=
  match str_find sep s with
  | None => [s]
  | Some i => [take i s; drop (i + length sep) s]
  end.

(** [s.rfind(c)] for a one-character [c]: the highest index of [c]. *)
Fixpoint rfind_char (c : N) (s : pystr) : option nat :=
  match s with
  | [] => None
  | x :: s' =>
      match rfind_char c s' with
      | Some i => Some (S i)
      | None => if N.eqb x c then Some 0 else None
      end
  end.

(** [s.rsplit(c, 1)] for a one-character separator: cut at the last
    occurrence only. *)
Definition rsplit_once (c : N) (s : pystr) : list pystr :=
  match rfind_char c s with
  | None => [s]
  | Some i => [take i s; drop (S i) s]
  end.

(** [xs[-1]] on a list that is never empty here. *)
Definition last_item (xs : list pystr) : pystr := List.last xs [].

(** Decimal rendering of an index, as [str(int)] and [%d] give it. *)
Definition str_of_nat (n : nat) : pystr :=
  lit (DecimalString.NilZero.string_of_uint (Nat.to_uint n)).

(** ** Exceptions and results *)

Inductive exn : Type :=
| ValueError (msg : pystr)
| AttributeError (msg : pystr)
| IndexError (msg : pystr)
| UnicodeEncodeError (object : pystr) (start stop : nat)
| PatchParseError (msg : pystr)
| OtherError (msg : pystr).

(** [%x] padded with zeros to [width] digits. *)
Definition hex_padded (width : nat) (n : N) : pystr :=
  let digits := lit (HexadecimalString.NilZero.string_of_uint (N.to_hex_uint n)) in
  replicate (width - length digits) 48%N ++ digits.

(** The escape Python prints for the offending character of a
    [UnicodeEncodeError]. *)
Definition char_escape (c : N) : pystr :=
  if (c <=? 255)%N then lit "\x" ++ hex_padded 2 c
  else if (c <=? 65535)%N then lit "\u" ++ hex_padded 4 c
  else lit "\U" ++ hex_padded 8 c.

(** [str(exc)] *)
Definition str_exn (e : exn) : pystr :=
  match e with
  | ValueError m | AttributeError m | IndexError m
  | PatchParseError m | OtherError m => m
  | UnicodeEncodeError obj start stop =>
      if Nat.eqb stop (S start) then
        lit "'utf-8' codec can't encode character '"
          ++ char_escape (nth start obj 0%N)
          ++ lit "' in position " ++ str_of_nat start
          ++ lit ": surrogates not allowed"
      else
        lit "'utf-8' codec can't encode characters in position "
          ++ str_of_nat start ++ lit "-" ++ str_of_nat (stop - 1)
          ++ lit ": surrogates not allowed"
  end.

Inductive result (A : Type) : Type :=
| Ok (a : A)
| Raise (e : exn).
Arguments Ok {A} a.
Arguments Raise {A} e.

(** The monad of computations that may raise, with stdpp's notation
    [x ← m; k]. *)
#[global] Instance result_ret : MRet result := fun _ a => Ok a.
#[global] Instance result_bind : MBind result := fun _ _ k m =>
  match m with
  | Ok a => k a
  | Raise e => Raise e
  end.

(** ** Filemode and the raw patch header *)

Inductive Filemode : Type := MODIFY | DELETE | NEW | RENAME | FILE.

Definition letter_M : N := 77%N.
Definition letter_C : N := 67%N.
Definition letter_A : N := 65%N.
Definition letter_T : N := 84%N.
Definition letter_R : N := 82%N.
Definition letter_D : N := 68%N.

(** The status letters of a header prefix:
    [prefix.rsplit(" ", 1)[-1].rstrip("0123456789")]. *)
Definition status_of_prefix (prefix : pystr) : pystr :=
  rstrip (lit "0123456789") (last_item (rsplit_once SPACE prefix)).

(** [_parse_patch_header_line]: the file name and filemode of one file
    line of the raw patch header. *)
Definition _parse_patch_header_line (line : pystr) : result (pystr * Filemode) :=
  match split_char NUL (rstrip [NUL] line) with
  | prefix :: name :: rest =>
      let name := match rest with
                  | new_name :: _ => new_name
                  | [] => name
                  end in
      let status := status_of_prefix prefix in
      if char_in letter_M status then Ok (name, MODIFY)
      else if char_in letter_C status then Ok (name, NEW)
      else if char_in letter_A status then Ok (name, NEW)
      else if char_in letter_T status then Ok (name, NEW)
      else if char_in letter_R status then Ok (name, RENAME)
      else if char_in letter_D status then Ok (name, DELETE)
      else Raise (ValueError (lit "Can't parse header line " ++ line
                                ++ lit ": unknown status " ++ status))
  | _ =>
      Raise (ValueError (lit "not enough values to unpack (expected at least 2, got 1)"))
  end.

(** [_RX_HEADER_LINE_SEPARATOR.split(header)]: cut at every newline or
    NUL that is followed by a colon; both characters are removed. *)
Fixpoint header_separator_split (s : pystr) : list pystr :=
  match s with
  | [] => [[]]
  | c :: s' =>
      let cut := match s' with
                 | d :: _ => (N.eqb c LF || N.eqb c NUL) && N.eqb d COLON
                 | [] => false
                 end in
      match header_separator_split s' with
      | f :: fs => if cut then [] :: List.tl f :: fs else (c :: f) :: fs
      | [] => [[c]]
      end
  end.

(** [re.split(r"^diff ", rest, flags=re.MULTILINE)]: cut at every
    ["diff "] that starts the text or follows a newline; the marker is
    removed.  [skip] counts the marker characters still to drop. *)
Fixpoint diff_marker_split_from (at_line_start : bool) (skip : nat) (s : pystr)
  : list pystr :=
  match s with
  | [] => [[]]
  | c :: s' =>
      match skip with
      | S k => diff_marker_split_from false k s'
      | O =>
          if at_line_start && startswith (lit "diff ") s
          then [] :: diff_marker_split_from false 4 s'
          else match diff_marker_split_from (N.eqb c LF) 0 s' with
               | f :: fs => (c :: f) :: fs
               | [] => [[c]]
               end
      end
  end.

Definition diff_marker_split (s : pystr) : list pystr :=
  diff_marker_split_from true 0 s.

(** A generator, run to its end: the items it yielded, in order, and the
    exception that ended it, if it did not finish normally. *)
Definition generated (A : Type) : Type := (list A * option exn)%type.

(** [_parse_patch_header]: a lazy sequence; each element is computed
    (and may raise) only when the consumer asks for it.  The first item
    of the split holds the commit information and is skipped. *)
Definition _parse_patch_header (header : pystr) : list (result (pystr * Filemode)) :=
  (fun line => _parse_patch_header_line (COLON :: line))
    <$> List.tl (header_separator_split header).

(** ** UTF-8 encoding *)

Definition is_surrogate (c : N) : bool := ((55296 <=? c) && (c <=? 57343))%N.

Definition utf8_width (c : N) : Z :=
  if (c <? 128)%N then 1
  else if (c <? 2048)%N then 2
  else if (c <? 65536)%N then 3
  else 4.

(** The length of the run of surrogates at the head of [s]. *)
Fixpoint surrogate_run (s : pystr) : nat :=
  match s with
  | c :: s' => if is_surrogate c then S (surrogate_run s') else 0
  | [] => 0
  end.

(** [len(s.encode("utf-8"))]: lone surrogates cannot be encoded; the
    error reports the first run of them. *)
Fixpoint utf8_length_from (whole : pystr) (pos : nat) (s : pystr) : result Z :=
  match s with
  | [] => Ok 0%Z
  | c :: s' =>
      if is_surrogate c
      then Raise (UnicodeEncodeError whole pos (pos + surrogate_run s))
      else n ← utf8_length_from whole (S pos) s'; Ok (utf8_width c + n)%Z
  end.

Definition utf8_length (s : pystr) : result Z := utf8_length_from s 0 s.

(** ** binary64 arithmetic of [MAX_FILE_SIZE * 0.90]

    A finite double is [fmant * 2 ^ fexp] with [|fmant| < 2 ^ 53].  The
    operations below round to nearest, ties to even, and are exact
    models as long as the exponent range of binary64 is not left, which
    file sizes never do. *)
Record float64 : Type := { fmant : Z; fexp : Z }.

Definition round53 (m e : Z) : float64 :=
  let a := Z.abs m in
  let excess := (Z.log2 a - 52)%Z in
  if (excess <=? 0)%Z then {| fmant := m; fexp := e |}
  else
    let q := Z.shiftr a excess in
    let r := Z.land a (Z.ones excess) in
    let half := Z.shiftl 1 (excess - 1) in
    let q' := if (half <? r)%Z || ((r =? half)%Z && Z.odd q) then (q + 1)%Z else q in
    {| fmant := (Z.sgn m * q')%Z; fexp := (e + excess)%Z |}.

(** [float(n)] *)
Definition float_of_int (n : Z) : float64 := round53 n 0.

Definition float_mul (a b : float64) : float64 :=
  round53 (fmant a * fmant b) (fexp a + fexp b).

(** The literal [0.90]: 0x1.ccccccccccccdp-1. *)
Definition float_0_90 : float64 := {| fmant := 8106479329266893; fexp := -53 |}.

(** [n > f] between an int and a float: Python compares the exact
    values. *)
Definition int_gt_float (n : Z) (f : float64) : bool :=
  if (0 <=? fexp f)%Z then (fmant f * 2 ^ fexp f <? n)%Z
  else (fmant f <? n * 2 ^ (- fexp f))%Z.

(** ** Scan models *)

(** [File] and [CommitFile]: the subclass only sets the filemode. *)
Record File : Type := { document : pystr; filename : pystr; filemode : Filemode }.

Definition new_File (document filename : pystr) : File :=
  {| document := document; filename := filename; filemode := FILE |}.

Definition CommitFile (document filename : pystr) (filemode : Filemode) : File :=
  {| document := document; filename := filename; filemode := filemode |}.

(** The payload sent to the scanning API: a dict with the three keys
    ["filename"], ["document"] and ["filemode"]. *)
Record ScanDict : Type :=
  { sd_filename : pystr; sd_document : pystr; sd_filemode : Filemode }.

(** [s[-n:]] *)
Definition str_suffix (n : nat) (s : pystr) : pystr := drop (length s - n) s.

(** [File.scan_dict] *)
Definition scan_dict (f : File) : ScanDict :=
  {| sd_filename := if length (filename f) <=? 256 then filename f
                    else str_suffix 255 (filename f);
     sd_document := document f;
     sd_filemode := filemode f |}.

(** A Python [dict] keyed by file names: insertion ordered, and
    assigning to a key already present replaces its value in place. *)
Definition dict (V : Type) : Type := list (pystr * V).

Fixpoint dict_set {V} (k : pystr) (v : V) (d : dict V) : dict V :=
  match d with
  | [] => [(k, v)]
  | (k', v') :: d' =>
      if decide (k' = k) then (k', v) :: d' else (k', v') :: dict_set k v d'
  end.

Fixpoint dict_get {V} (k : pystr) (d : dict V) : option V :=
  match d with
  | [] => None
  | (k', v') :: d' => if decide (k' = k) then Some v' else dict_get k d'
  end.

Definition dict_keys {V} (d : dict V) : list pystr := d.*1.
Definition dict_values {V} (d : dict V) : list V := d.*2.

(** [{entry.filename: entry for entry in files}] *)
Definition dict_of_files (files : list File) : dict File :=
  foldl (fun d entry => dict_set (filename entry) entry d) [] files.

(** [Files]: the only attribute is [_files]. *)
Record Files : Type := { _files : dict File }.

Definition new_Files (files : list File) : Files :=
  {| _files := dict_of_files files |}.

Definition Files_files (self : Files) : dict File := _files self.

Definition scannable_list (self : Files) : list ScanDict :=
  scan_dict <$> dict_values (Files_files self).

Definition apply_filter (self : Files) (filter_func : File -> bool) : Files :=
  new_Files (List.filter filter_func (dict_values (Files_files self))).

(** [File.relative_to] and [Files.relative_to].  [pathlib] is an
    external library: [path_relative_to filename root] stands for
    [str(Path(filename).relative_to(root))], which raises when the file
    is not below the root.  The new unit is a plain [File]. *)
Section RelativeTo.
Variable Path : Type.
Variable path_relative_to : pystr -> Path -> result pystr.

Definition File_relative_to (self : File) (root_path : Path) : result File :=
  name ← path_relative_to (filename self) root_path;
  Ok (new_File (document self) name).

Fixpoint relative_to_each (files : list File) (root_path : Path)
  : result (list File) :=
  match files with
  | [] => Ok []
  | f :: files' =>
      f' ← File_relative_to f root_path;
      rest ← relative_to_each files' root_path;
      Ok (f' :: rest)
  end.

Definition Files_relative_to (self : Files) (root_path : Path) : result Files :=
  files ← relative_to_each (dict_values (Files_files self)) root_path;
  Ok (new_Files files).
End RelativeTo.

(** ** Results of a scan *)

Section Results.
(** [pygitguardian.models.ScanResult] and the IaC result are external. *)
Variable ScanResult : Type.
Variable IaCScanResult : Type.

Record Result : Type :=
  { content : pystr;
    r_filemode : Filemode;
    r_filename : pystr;
    scan : ScanResult }.

Record Error : Type :=
  { files : list (pystr * Filemode);
    description : pystr }.

Record Results : Type :=
  { results : list Result;
    errors : list Error }.

Definition from_exception (exc : exn) : Results :=
  {| results := [];
     errors := [ {| files := []; description := str_exn exc |} ] |}.

#[warnings="-register-all"]
Inductive ScanCollection : Type :=
  mkScanCollection
    (id : pystr)
    (type : pystr)
    (sc_results : option Results)
    (scans : option (list ScanCollection))
    (iac_result : option IaCScanResult)
    (optional_header : option pystr)
    (extra_info : option (dict pystr)).

Definition sc_results (c : ScanCollection) : option Results :=
  let 'mkScanCollection _ _ r _ _ _ _ := c in r.

Definition scans (c : ScanCollection) : option (list ScanCollection) :=
  let 'mkScanCollection _ _ _ s _ _ _ := c in s.

(** Truth value of an [Optional[Results]]: a dataclass instance is
    always true, [None] is false. *)
Definition truthy_results (r : option Results) : bool :=
  match r with Some _ => true | None => false end.

(** [ScanCollection.scans_with_results] *)
Definition scans_with_results (self : ScanCollection) : list ScanCollection :=
  match scans self with
  | Some (s :: ss) =>
      List.filter (fun scan => truthy_results (sc_results scan)) (s :: ss)
  | _ => []
  end.

(** [ScanCollection.has_results] *)
Definition has_results (self : ScanCollection) : bool :=
  match sc_results self with
  | Some r => match results r with [] => false | _ :: _ => true end
  | None => false
  end.

(** The loop [for scan in self.scans: yield from scan.results.results]:
    reading [.results] of [None] raises. *)
Fixpoint sub_scan_results (scans : list ScanCollection) : generated Result :=
  match scans with
  | [] => ([], None)
  | scan :: rest =>
      match sc_results scan with
      | None =>
          ([], Some (AttributeError
                       (lit "'NoneType' object has no attribute 'results'")))
      | Some r =>
          let '(ys, fin) := sub_scan_results rest in (results r ++ ys, fin)
      end
  end.

(** [ScanCollection.get_all_results] *)
Definition get_all_results (self : ScanCollection) : generated Result :=
  let own := match sc_results self with
             | Some r => results r
             | None => []
             end in
  match scans self with
  | Some (s :: ss) =>
      let '(ys, fin) := sub_scan_results (s :: ss) in (own ++ ys, fin)
  | _ => (own, None)
  end.
End Results.

Arguments content {ScanResult} _.
Arguments r_filemode {ScanResult} _.
Arguments r_filename {ScanResult} _.
Arguments scan {ScanResult} _.
Arguments results {ScanResult} _.
Arguments errors {ScanResult} _.
Arguments sc_results {ScanResult IaCScanResult} _.
Arguments scans {ScanResult IaCScanResult} _.
Arguments scans_with_results {ScanResult IaCScanResult} _.
Arguments has_results {ScanResult IaCScanResult} _.
Arguments sub_scan_results {ScanResult IaCScanResult} _.
Arguments get_all_results {ScanResult IaCScanResult} _.
Arguments truthy_results {ScanResult} _.

(** ** [Files.scan] *)

(** What [client.multi_content_scan] gives back: a [MultiScanResult] or
    a [Detail], each carrying the HTTP status code. *)
Inductive ScanResponse (ScanResult : Type) : Type :=
| MultiScanResult (status_code : option Z) (scan_results : list ScanResult)
| Detail (status_code : option Z) (detail : pystr).
Arguments MultiScanResult {ScanResult} _ _.
Arguments Detail {ScanResult} _ _.

(** A finished future: the call returned a response or raised. *)
Inductive Future (ScanResult : Type) : Type :=
| Returned (response : ScanResponse ScanResult)
| Failed (exception : exn).
Arguments Returned {ScanResult} _.
Arguments Failed {ScanResult} _.

Definition status_code {ScanResult} (r : ScanResponse ScanResult) : option Z :=
  match r with
  | MultiScanResult c _ | Detail c _ => c
  end.

(** [scan.success]: the status code is 200. *)
Definition success {ScanResult} (r : ScanResponse ScanResult) : bool :=
  match status_code r with
  | Some c => (c =? 200)%Z
  | None => false
  end.

(** [range(0, n, step)] *)
Definition py_range (n step : nat) : result (list nat) :=
  match step with
  | O => Raise (ValueError (lit "range() arg 3 must not be zero"))
  | S _ => Ok ((fun k => k * step) <$> seq 0 ((n + step - 1) / step))
  end.

(** [l[i : j]] for [0 <= i <= j] *)
Definition slice {A} (l : list A) (i j : nat) : list A := take (j - i) (drop i l).

(** The chunks of the payload list. *)
Definition chunks_of {A} (limit : nat) (l : list A) : result (list (list A)) :=
  starts ← py_range (length l) limit;
  Ok ((fun i => slice l i (i + limit)) <$> (starts : list nat)).

Section Scan.
(** External collaborators of the scan. *)
Variable ScanResult PolicyBreak IgnoredMatch Cache Headers : Type.
Variable MULTI_DOCUMENT_LIMIT : nat.
Variable has_policy_breaks : ScanResult -> bool.
Variable policy_breaks : ScanResult -> list PolicyBreak.
(** The two filters change the scan result in place; here they return
    the changed value. *)
Variable remove_ignored_from_result :
  ScanResult -> list IgnoredMatch -> ScanResult.
Variable remove_results_from_ignore_detectors :
  ScanResult -> option (list pystr) -> ScanResult.
Variable cache_purge : Cache -> Cache.
Variable cache_add_found_policy_break : PolicyBreak -> pystr -> Cache -> Cache.
Variable cache_save : Cache -> Cache.
(** [handle_scan_chunk_error] reports the failure to the user; [Some e]
    means that it raised [e]. *)
Variable handle_scan_chunk_error :
  ScanResponse ScanResult -> list ScanDict -> option exn.
(** The remote call made by a worker for one chunk. *)
Variable multi_content_scan : list ScanDict -> Headers -> Future ScanResult.

(** The local state of [scan]: the two accumulators, the cache and the
    chunks passed so far to [on_file_chunk_scanned]. *)
Record ScanState : Type :=
  { st_results : list (Result ScanResult);
    st_errors : list Error;
    st_cache : Cache;
    st_progress : list (list ScanDict) }.

(** The body of [for index, scanned in enumerate(scan.scan_results)]. *)
Fixpoint record_scan_results (matches_ignore : list IgnoredMatch)
    (ignored_detectors : option (list pystr)) (chunk : list ScanDict)
    (index : nat) (scan_results : list ScanResult) (st : ScanState)
  : result ScanState :=
  match scan_results with
  | [] => Ok st
  | scanned :: rest =>
      let scanned :=
        remove_results_from_ignore_detectors
          (remove_ignored_from_result scanned matches_ignore) ignored_detectors in
      if has_policy_breaks scanned then
        match chunk !! index with
        | None => Raise (IndexError (lit "list index out of range"))
        | Some file =>
            let cache :=
              foldl (fun c policy_break =>
                       cache_add_found_policy_break policy_break (sd_filename file) c)
                    (st_cache st) (policy_breaks scanned) in
            record_scan_results matches_ignore ignored_detectors chunk (S index) rest
              {| st_results := st_results st ++
                   [ {| content := sd_document file;
                        scan := scanned;
                        r_filemode := sd_filemode file;
                        r_filename := sd_filename file |} ];
                 st_errors := st_errors st;
                 st_cache := cache;
                 st_progress := st_progress st |}
        end
      else
        record_scan_results matches_ignore ignored_detectors chunk (S index) rest st
  end.

(** One round of [for future in as_completed(future_to_scan)]. *)
Definition scan_completed (matches_ignore : list IgnoredMatch)
    (ignored_detectors : option (list pystr))
    (st : ScanState) (completed : list ScanDict * Future ScanResult)
  : result ScanState :=
  let '(chunk, future) := completed in
  let st := {| st_results := st_results st;
               st_errors := st_errors st;
               st_cache := st_cache st;
               st_progress := st_progress st ++ [chunk] |} in
  let '(scan, st) :=
    match future with
    | Returned response => (response, st)
    | Failed exception =>
        let scan := Detail None (str_exn exception) in
        (scan,
         {| st_results := st_results st;
            st_errors := st_errors st ++
              [ {| files := (fun file => (sd_filename file, sd_filemode file)) <$> chunk;
                   description := str_exn exception |} ];
            st_cache := st_cache st;
            st_progress := st_progress st |})
    end in
  if negb (success scan) then
    match handle_scan_chunk_error scan chunk with
    | Some e => Raise e
    | None => Ok st
    end
  else
    match scan with
    | MultiScanResult _ scan_results =>
        record_scan_results matches_ignore ignored_detectors chunk 0 scan_results st
    | Detail _ _ =>
        Raise (AttributeError (lit "'Detail' object has no attribute 'scan_results'"))
    end.

Fixpoint scan_all_completed (matches_ignore : list IgnoredMatch)
    (ignored_detectors : option (list pystr))
    (st : ScanState) (completed : list (list ScanDict * Future ScanResult))
  : result ScanState :=
  match completed with
  | [] => Ok st
  | c :: rest =>
      st' ← scan_completed matches_ignore ignored_detectors st c;
      scan_all_completed matches_ignore ignored_detectors st' rest
  end.

(** [future_to_scan]: one submitted call per chunk, in chunk order. *)
Definition future_to_scan (headers : Headers) (chunks : list (list ScanDict))
  : list (list ScanDict * Future ScanResult) :=
  (fun chunk => (chunk, multi_content_scan chunk headers)) <$> chunks.

(** [Files.scan].  [headers] is the header dict built from
    [mode_header] and [extra_headers].  [as_completed] lists the
    positions of the submitted calls in the order in which they finish;
    the thread pool decides it, the function does not.  The value
    returned is the [Results] together with the cache and the chunks
    reported to [on_file_chunk_scanned]. *)
Definition Files_scan (self : Files) (cache : Cache)
    (matches_ignore : list IgnoredMatch) (headers : Headers)
    (ignored_detectors : option (list pystr)) (as_completed : list nat)
  : result (Results ScanResult * Cache * list (list ScanDict)) :=
  let cache := cache_purge cache in
  let scannable_list := scannable_list self in
  chunks ← chunks_of MULTI_DOCUMENT_LIMIT scannable_list;
  let futures := future_to_scan headers chunks in
  st ← scan_all_completed matches_ignore ignored_detectors
         {| st_results := []; st_errors := []; st_cache := cache; st_progress := [] |}
         (omap (fun i => futures !! i) as_completed);
  Ok ({| results := st_results st; errors := st_errors st |},
      cache_save (st_cache st), st_progress st).
(** What one chunk adds to the outcome.  A successful call adds, in
    index order, the documents that still have policy breaks after the
    two filters; a call that raised adds one error entry. *)
Definition chunk_results (matches_ignore : list IgnoredMatch)
    (ignored_detectors : option (list pystr)) (chunk : list ScanDict)
    (scan_results : list ScanResult) : list (Result ScanResult) :=
  omap (fun '(file, scanned) =>
          let scanned :=
            remove_results_from_ignore_detectors
              (remove_ignored_from_result scanned matches_ignore) ignored_detectors in
          if has_policy_breaks scanned
          then Some {| content := sd_document file;
                       scan := scanned;
                       r_filemode := sd_filemode file;
                       r_filename := sd_filename file |}
          else None)
       (zip chunk scan_results).

Definition chunk_error (chunk : list ScanDict) (exception : exn) : Error :=
  {| files := (fun file => (sd_filename file, sd_filemode file)) <$> chunk;
     description := str_exn exception |}.

Definition completed_results (matches_ignore : list IgnoredMatch)
    (ignored_detectors : option (list pystr))
    (completed : list ScanDict * Future ScanResult) : list (Result ScanResult) :=
  match completed.2 with
  | Returned (MultiScanResult code scan_results) =>
      if success (MultiScanResult code scan_results)
      then chunk_results matches_ignore ignored_detectors completed.1 scan_results
      else []
  | _ => []
  end.

Definition completed_errors (completed : list ScanDict * Future ScanResult)
  : list Error :=
  match completed.2 with
  | Failed exception => [chunk_error completed.1 exception]
  | Returned _ => []
  end.

(** A finished call that the loop can process without raising: a
    successful response is a [MultiScanResult] with no more results
    than documents; for any other outcome the error handler returns. *)
Definition settles (completed : list ScanDict * Future ScanResult) : Prop :=
  match completed.2 with
  | Returned (MultiScanResult code scan_results) =>
      if success (MultiScanResult code scan_results)
      then length scan_results <= length completed.1
      else handle_scan_chunk_error (MultiScanResult code scan_results) completed.1 = None
  | Returned (Detail code detail) =>
      success (Detail code detail : ScanResponse ScanResult) = false
      /\ handle_scan_chunk_error (Detail code detail) completed.1 = None
  | Failed exception =>
      handle_scan_chunk_error (Detail None (str_exn exception)) completed.1 = None
  end.
End Scan.

Arguments record_scan_results {ScanResult PolicyBreak IgnoredMatch Cache}.
Arguments scan_completed {ScanResult PolicyBreak IgnoredMatch Cache}.
Arguments scan_all_completed {ScanResult PolicyBreak IgnoredMatch Cache}.
Arguments future_to_scan {ScanResult Headers}.
Arguments Files_scan {ScanResult PolicyBreak IgnoredMatch Cache Headers}.
Arguments chunk_results {ScanResult IgnoredMatch}.
Arguments completed_results {ScanResult IgnoredMatch}.
Arguments completed_errors {ScanResult}.
Arguments settles {ScanResult}.
Arguments st_results {ScanResult Cache}.
Arguments st_errors {ScanResult Cache}.
Arguments st_cache {ScanResult Cache}.
Arguments st_progress {ScanResult Cache}.
Arguments Build_ScanState {ScanResult Cache}.

(** Modelled from the spec: [ggshield.scan.scannable_errors] is not among
    the sources.  The scan never raises for a per-chunk failure; the
    failure is reported and the other chunks are processed, so the
    handler returns for every failed chunk. *)
Definition spec_handle_scan_chunk_error {ScanResult}
    (scan : ScanResponse ScanResult) (chunk : list ScanDict) : option exn :=
  None.

(** ** [Commit] *)

Section Commit.
(** [ggshield.core.filter.is_filepath_excluded] and
    [ggshield.core.constants.MAX_FILE_SIZE] are not part of the sources
    at hand. *)
Variable ExclusionRegexes : Type.
Variable is_filepath_excluded : pystr -> ExclusionRegexes -> bool.
Variable MAX_FILE_SIZE : Z.

(** A commit whose patch text has been fetched. *)
Record Commit : Type :=
  { sha : option pystr;
    patch : pystr;
    exclusion_regexes : ExclusionRegexes }.

(** [f"{self.sha}"] *)
Definition str_of_sha (sha : option pystr) : pystr :=
  match sha with
  | Some s => s
  | None => lit "None"
  end.

(** [MAX_FILE_SIZE * 0.90] *)
Definition size_limit : float64 := float_mul (float_of_int MAX_FILE_SIZE) float_0_90.

(** The body of the loop of [get_files] for one file: [None] stands
    for [continue] and for the case where nothing is yielded. *)
Definition extract_commit_file (self : Commit) (filename : pystr)
    (filemode : Filemode) (diff : pystr) : result (option File) :=
  if is_filepath_excluded filename (exclusion_regexes self) then Ok None
  else
    match str_find (LF :: lit "@@") diff with
    | None => Ok None
    | Some end_of_headers =>
        let document := drop (end_of_headers + 1) diff in
        file_size ← utf8_length document;
        if int_gt_float file_size size_limit then Ok None
        else
          match document with
          | _ :: _ => Ok (Some (CommitFile document filename filemode))
          | [] => Ok None
          end
    end.

(** [for (filename, filemode), diff in zip(names_and_modes, diffs)]:
    [zip] asks the header parser for its next item first, then takes the
    next diff, and stops when either runs out. *)
Fixpoint get_files_loop (self : Commit)
    (names_and_modes : list (result (pystr * Filemode))) (diffs : list pystr)
  : generated File :=
  match names_and_modes with
  | [] => ([], None)
  | Raise e :: _ => ([], Some e)
  | Ok (filename, filemode) :: names_and_modes' =>
      match diffs with
      | [] => ([], None)
      | diff :: diffs' =>
          match extract_commit_file self filename filemode diff with
          | Raise e => ([], Some e)
          | Ok found =>
              let '(ys, fin) := get_files_loop self names_and_modes' diffs' in
              (option_list found ++ ys, fin)
          end
      end
  end.

(** The handler of [get_files]: every exception is replaced by a
    [PatchParseError]. *)
Definition wrap_parse_error (self : Commit) (exc : exn) : exn :=
  PatchParseError (lit "Could not parse patch (sha: " ++ str_of_sha (sha self)
                     ++ lit "): " ++ str_exn exc).

(** [Commit.get_files] *)
Definition get_files (self : Commit) : generated File :=
  match split_once (NUL :: lit "diff ") (patch self) with
  | [header; rest] =>
      let names_and_modes := _parse_patch_header header in
      let diffs := diff_marker_split rest in
      let '(ys, fin) := get_files_loop self names_and_modes diffs in
      (ys, wrap_parse_error self <$> fin)
  | _ => ([], None)
  end.

(** [Commit.files], on a commit whose [_files] is still empty:
    [list(self.get_files())] runs the generator to its end, so an
    exception leaves no dict behind. *)
Definition Commit_files (self : Commit) : result (dict File) :=
  match get_files self with
  | (ys, None) => Ok (dict_of_files ys)
  | (_, Some e) => Raise e
  end.
End Commit.

Arguments sha {ExclusionRegexes} _.
Arguments patch {ExclusionRegexes} _.
Arguments exclusion_regexes {ExclusionRegexes} _.
Arguments extract_commit_file {ExclusionRegexes}.
Arguments get_files_loop {ExclusionRegexes}.
Arguments wrap_parse_error {ExclusionRegexes}.
Arguments get_files {ExclusionRegexes}.
Arguments Commit_files {ExclusionRegexes}.

(** ** Pre-push IaC diff scan *)

Section PrePush.
(** The identity of an IaC finding. *)
Context {Incident : Type} `{EqDecision Incident}.

(** The three sets of [entities_with_incidents] of a diff scan. *)
Record DiffResult : Type :=
  { new : list Incident;
    unchanged : list Incident;
    deleted : list Incident }.

(** [IaCDiffScanCollection]: only [result] is read here. *)
Record IaCDiffScanCollection : Type :=
  { result_ : option DiffResult }.

(** The dict built by [create_diff_scan_dict]. *)
Record DiffScanDict : Type :=
  { added_vulns : list Incident;
    persisting_vulns : list Incident;
    removed_vulns : list Incident }.

(** [IaCJSONOutputHandler.create_diff_scan_dict] *)
Definition create_diff_scan_dict (scan : IaCDiffScanCollection) : DiffScanDict :=
  match result_ scan with
  | Some r =>
      {| added_vulns := foldl (fun acc incident => acc ++ [incident]) [] (new r);
         persisting_vulns := foldl (fun acc incident => acc ++ [incident]) [] (unchanged r);
         removed_vulns := foldl (fun acc incident => acc ++ [incident]) [] (deleted r) |}
  | None =>
      {| added_vulns := []; persisting_vulns := []; removed_vulns := [] |}
  end.

(** Modelled from the spec: [ggshield.core.utils.EMPTY_SHA] is not among
    the sources; it is the zero history reference, forty zeros. *)
Definition EMPTY_SHA : pystr := replicate 40 48%N.

(** Modelled from the spec: the diff reconciler, which the sources only
    call ([ggshield.cmd.iac.scan.diff.iac_scan_diff]).  [new] holds the
    identities present in current and absent in baseline, [unchanged]
    those present in both, [deleted] those present in baseline and
    absent in current. *)
Definition reconcile (baseline current : list Incident) : DiffResult :=
  {| new := List.filter (fun i => bool_decide (i ∉ baseline)) current;
     unchanged := List.filter (fun i => bool_decide (i ∈ baseline)) current;
     deleted := List.filter (fun i => bool_decide (i ∉ current)) baseline |}.

(** Modelled from the spec: [iac_scan_diff].  [findings_at ref] is the
    scan outcome at a reference, [current] the outcome of the state
    being pushed; an absent baseline is an empty baseline set. *)
Definition iac_scan_diff (findings_at : pystr -> list Incident)
    (current : list Incident) (previous_ref : option pystr)
  : IaCDiffScanCollection :=
  let baseline := match previous_ref with
                  | Some ref => findings_at ref
                  | None => []
                  end in
  {| result_ := Some (reconcile baseline current) |}.

(** [scan_pre_push_cmd], from the remote commit given by
    [collect_commits_refs] to the collection handed to the output
    handler. *)
Definition scan_pre_push_cmd (findings_at : pystr -> list Incident)
    (current : list Incident) (remote_commit : pystr) : IaCDiffScanCollection :=
  let remote_commit :=
    if bool_decide (is_Some (str_find (lit "~1") remote_commit))
       || bool_decide (remote_commit = EMPTY_SHA)
    then None else Some remote_commit in
  iac_scan_diff findings_at current remote_commit.
End PrePush.

Arguments DiffResult : clear implicits.
Arguments IaCDiffScanCollection : clear implicits.
Arguments DiffScanDict : clear implicits.

(** ** [IaCJSONOutputHandler.create_scan_dict] *)

Section IaCScanDict.
(** An incident, and the keys of the dicts that are only passed on. *)
Variable Incident OtherKeys : Type.

(** An entry of ["entities_with_incidents"] in the dict given by
    [to_dict]; ["total_incidents"] is absent until it is assigned. *)
Record EntityDict : Type :=
  { entity_keys : OtherKeys;
    incidents : list Incident;
    entity_total_incidents : option nat }.

(** The dict of a path scan: what [scan.result.to_dict()] gives, with
    ["total_incidents"] absent, and what [create_scan_dict] returns. *)
Record PathScanDict : Type :=
  { scan_keys : OtherKeys;
    total_incidents : option nat;
    entities_with_incidents : list EntityDict }.

(** [IaCPathScanCollection]: [id_type] stands for the keys ["id"] and
    ["type"] made from [scan.id] and [scan.type.value]; [to_dict] is
    the dict of [scan.result] when there is a result. *)
Record IaCPathScanCollection : Type :=
  { id_type : OtherKeys;
    to_dict : option PathScanDict }.

(** One round of the loop over the entities: the entity gets its own
    total and the total of the scan grows by it. *)
Definition count_entity (acc : nat * list EntityDict) (entity : EntityDict)
  : nat * list EntityDict :=
  let total_incidents := length (incidents entity) in
  (acc.1 + total_incidents,
   acc.2 ++ [ {| entity_keys := entity_keys entity;
                 incidents := incidents entity;
                 entity_total_incidents := Some total_incidents |} ]).

Definition create_scan_dict (scan : IaCPathScanCollection) : PathScanDict :=
  match to_dict scan with
  | None =>
      {| scan_keys := id_type scan;
         total_incidents := Some 0;
         entities_with_incidents := [] |}
  | Some scan_dict =>
      let counted := foldl count_entity (0, []) (entities_with_incidents scan_dict) in
      {| scan_keys := scan_keys scan_dict;
         total_incidents := Some counted.1;
         entities_with_incidents := counted.2 |}
  end.
End IaCScanDict.

Arguments entity_keys {Incident OtherKeys} _.
Arguments incidents {Incident OtherKeys} _.
Arguments entity_total_incidents {Incident OtherKeys} _.
Arguments scan_keys {Incident OtherKeys} _.
Arguments total_incidents {Incident OtherKeys} _.
Arguments entities_with_incidents {Incident OtherKeys} _.
Arguments id_type {Incident OtherKeys} _.
Arguments to_dict {Incident OtherKeys} _.
Arguments count_entity {Incident OtherKeys} _ _.
Arguments create_scan_dict {Incident OtherKeys} _.

(** ** Definitions used to state the properties *)

(** The precedence of the status letters, in the words of the
    specification: the first letter of the table that occurs in the
    status decides. *)
Definition spec_status_precedence : list (N * Filemode) :=
  [ (letter_M, MODIFY); (letter_C, NEW); (letter_A, NEW);
    (letter_T, NEW); (letter_R, RENAME); (letter_D, DELETE) ].

Definition spec_resolve_status (status : pystr) : option Filemode :=
  snd <$> List.find (fun entry => char_in (fst entry) status) spec_status_precedence.

(** The name a header line reports: the new name when there is one. *)
Definition reported_name (name : pystr) (rest : list pystr) : pystr :=
  match rest with
  | new_name :: _ => new_name
  | [] => name
  end.

Definition digits : pystr := lit "0123456789".

(** The files of [files] named [name], in their order. *)
Definition named (name : pystr) (files : list File) : list File :=
  List.filter (fun f => bool_decide (filename f = name)) files.

(** The results a collection holds itself, none when [results] is
    [None]. *)
Definition own_results {ScanResult IaCScanResult}
    (c : ScanCollection ScanResult IaCScanResult) : list (Result ScanResult) :=
  match sc_results c with
  | Some r => results r
  | None => []
  end.

Definition attribute_error_results : exn :=
  AttributeError (lit "'NoneType' object has no attribute 'results'").

(** A sample scan: the service finds one policy break in every
    document, except that the call for the chunk holding [failing]
    raises. *)
Definition sample_file (i : nat) : File :=
  new_File (lit "password = hunter2") (lit "file" ++ str_of_nat i).

Definition sample_files (n : nat) : list File := sample_file <$> seq 0 n.

Definition sample_payload (i : nat) : ScanDict := scan_dict (sample_file i).

Definition sample_client (failing : pystr) (chunk : list ScanDict) (headers : unit)
  : Future nat :=
  if bool_decide (failing ∈ sd_filename <$> chunk)
  then Failed (OtherError (lit "Connection reset by peer"))
  else Returned (MultiScanResult (Some 200%Z) ((fun _ => 1) <$> chunk)).

Definition sample_scan (limit : nat) (failing : pystr) (files : list File)
    (as_completed : list nat)
  : result (Results nat * list (nat * pystr) * list (list ScanDict)) :=
  Files_scan (IgnoredMatch := unit) limit
    (fun scanned => 0 <? scanned) (fun scanned => seq 0 scanned)
    (fun scanned _ => scanned) (fun scanned _ => scanned)
    (fun _ => []) (fun policy_break name cache => cache ++ [(policy_break, name)])
    (fun cache => cache)
    spec_handle_scan_chunk_error (sample_client failing)
    (new_Files files) [] [] tt None as_completed.

(** A sample commit: one modified and one added file.  [status] is
    the status of the second file. *)
Definition sample_patch (status : pystr) : pystr :=
  lit "commit 9e0d0c1f" ++ LF :: lit "Author: dev <dev@example.com>" ++ LF
    :: lit "Date:   Fri Oct 14 12:00:00 2022 +0200" ++ LF :: LF
    :: lit "    Update settings" ++ LF :: LF
    :: lit ":100644 100644 bcd1234 0123456 M" ++ NUL :: lit "a.py" ++ NUL
    :: lit ":000000 100644 0000000 1234567 " ++ status ++ NUL :: lit "b.py" ++ NUL
    :: NUL :: lit "diff --git a/a.py b/a.py" ++ LF
    :: lit "index bcd1234..0123456 100644" ++ LF
    :: lit "--- a/a.py" ++ LF :: lit "+++ b/a.py" ++ LF
    :: lit "@@ -1 +1 @@" ++ LF :: lit "-key = 1" ++ LF :: lit "+key = 2" ++ LF
    :: lit "diff --git a/b.py b/b.py" ++ LF
    :: lit "new file mode 100644" ++ LF
    :: lit "--- /dev/null" ++ LF :: lit "+++ b/b.py" ++ LF
    :: lit "@@ -0,0 +1 @@" ++ LF :: lit "+token = 3" ++ [LF].

Definition sample_commit (status : pystr) : Commit unit :=
  {| sha := Some (lit "9e0d0c1f");
     patch := sample_patch status;
     exclusion_regexes := tt |}.

Definition sample_get_files (max_file_size : Z) (status : pystr) : generated File :=
  get_files (fun _ _ => false) max_file_size (sample_commit status).

(** The part of [sample_patch] for its first file. *)
Definition sample_diff : pystr :=
  lit "--git a/a.py b/a.py" ++ LF
    :: lit "index bcd1234..0123456 100644" ++ LF
    :: lit "--- a/a.py" ++ LF :: lit "+++ b/a.py" ++ LF
    :: lit "@@ -1 +1 @@" ++ LF :: lit "-key = 1" ++ LF :: lit "+key = 2" ++ [LF].

(** [sep.join(pieces)] *)
Fixpoint join (sep : pystr) (pieces : list pystr) : pystr :=
  match pieces with
  | [] => []
  | [piece] => piece
  | piece :: rest => piece ++ sep ++ join sep rest
  end.

(** Whether the header separator pattern, a newline or NUL followed by
    a colon, occurs in [s]. *)
Fixpoint has_header_separator (s : pystr) : bool :=
  match s with
  | c :: s' =>
      match s' with
      | d :: _ => ((N.eqb c LF || N.eqb c NUL) && N.eqb d COLON)
                  || has_header_separator s'
      | [] => false
      end
  | [] => false
  end.

(** A raw header: the commit information followed by the file records,
    each introduced by a newline or a NUL and a colon. *)
Definition raw_header (info : pystr) (records : list (N * pystr)) : pystr :=
  info ++ concat ((fun r => r.1 :: COLON :: r.2) <$> records).

(** The two parts of [sample_diff]: the extended headers and the
    document. *)
Definition sample_diff_headers : pystr :=
  lit "--git a/a.py b/a.py" ++ LF
    :: lit "index bcd1234..0123456 100644" ++ LF
    :: lit "--- a/a.py" ++ LF :: lit "+++ b/a.py".

Definition sample_document : pystr :=
  lit "@@ -1 +1 @@" ++ LF :: lit "-key = 1" ++ LF :: lit "+key = 2" ++ [LF].

(** A commit that changes nothing but a file mode: its patch has a
    header record and no diff. *)
Definition sample_commit_without_diff : Commit unit :=
  {| sha := None;
     patch := lit "commit 41f2aa07" ++ LF :: LF :: lit "    chmod" ++ LF :: LF
                :: lit ":100644 100755 bcd1234 bcd1234 ?" ++ NUL :: lit "run.sh" ++ [NUL];
     exclusion_regexes := tt |}.

(** A path rewriting that removes the leading ["src/"] and rejects any
    other path, as [Path.relative_to] does for the root [src]. *)
Definition sample_relative_to (name : pystr) (root : unit) : result pystr :=
  if startswith (lit "src/") name then Ok (drop 4 name)
  else Raise (ValueError (name ++ lit " is not in the subpath of 'src'")).

(** [scan] as the loop of [Files.scan] sees it: the response of the
    call, or the [Detail] made from the exception it raised. *)
Definition scan_of_future {ScanResult} (future : Future ScanResult)
  : ScanResponse ScanResult :=
  match future with
  | Returned response => response
  | Failed exception => Detail None (str_exn exception)
  end.

(** The policy breaks of a list of results, each with the file name of
    its result, in the order of the results. *)
Definition found_policy_breaks {ScanResult PolicyBreak}
    (policy_breaks : ScanResult -> list PolicyBreak)
    (results : list (Result ScanResult)) : list (PolicyBreak * pystr) :=
  r ← results; (fun policy_break => (policy_break, r_filename r)) <$> policy_breaks (scan r).

(** The sample scan with another error handler and another client. *)
Definition sample_scan_with
    (handler : ScanResponse nat -> list ScanDict -> option exn)
    (client : list ScanDict -> unit -> Future nat)
    (limit : nat) (files : list File) (as_completed : list nat)
  : result (Results nat * list (nat * pystr) * list (list ScanDict)) :=
  Files_scan (IgnoredMatch := unit) limit
    (fun scanned => 0 <? scanned) (fun scanned => seq 0 scanned)
    (fun scanned _ => scanned) (fun scanned _ => scanned)
    (fun _ => []) (fun policy_break name cache => cache ++ [(policy_break, name)])
    (fun cache => cache)
    handler client (new_Files files) [] [] tt None as_completed.

(** A handler that raises when the API key is refused. *)
Definition sample_handler (scan : ScanResponse nat) (chunk : list ScanDict)
  : option exn :=
  match scan with
  | Detail (Some 401%Z) detail => Some (OtherError detail)
  | _ => None
  end.

(** Clients: one whose key is refused, one behind a failing service,
    one that answers with a result too many. *)
Definition sample_client_unauthorized (chunk : list ScanDict) (headers : unit)
  : Future nat :=
  Returned (Detail (Some 401%Z) (lit "Invalid API key.")).

Definition sample_client_unavailable (chunk : list ScanDict) (headers : unit)
  : Future nat :=
  Returned (Detail (Some 503%Z) (lit "Service Unavailable")).

Definition sample_client_excess (chunk : list ScanDict) (headers : unit)
  : Future nat :=
  Returned (MultiScanResult (Some 200%Z) (((fun _ => 0) <$> chunk) ++ [1])).

(** A file of a patch, as its header record and its body chunk give it:
    name, filemode, extended headers and document. *)
Definition patch_entry : Type := (pystr * Filemode * pystr * pystr)%type.

Definition entry_name (e : patch_entry) : pystr := e.1.1.1.
Definition entry_mode (e : patch_entry) : Filemode := e.1.1.2.
Definition entry_headers (e : patch_entry) : pystr := e.1.2.
Definition entry_document (e : patch_entry) : pystr := e.2.
Definition entry_diff (e : patch_entry) : pystr :=
  entry_headers e ++ LF :: entry_document e.
Definition entry_file (e : patch_entry) : File :=
  CommitFile (entry_document e) (entry_name e) (entry_mode e).

(** A file of a patch that must be emitted: not excluded, with its
    first hunk marker right after its extended headers and a document
    within the size limit. *)
Definition emitted_file {ExclusionRegexes : Type}
    (is_filepath_excluded : pystr -> ExclusionRegexes -> bool)
    (MAX_FILE_SIZE : Z) (self : Commit ExclusionRegexes) (e : patch_entry) : Prop :=
  is_filepath_excluded (entry_name e) (exclusion_regexes self) = false
  /\ startswith (lit "@@") (entry_document e) = true
  /\ (forall j, j < length (entry_headers e) ->
        startswith (LF :: lit "@@") (drop j (entry_diff e)) = false)
  /\ exists size, utf8_length (entry_document e) = Ok size
                  /\ (10 * size <= 9 * MAX_FILE_SIZE)%Z.

(** The two files of [sample_patch]. *)
Definition sample_entries : list patch_entry :=
  [ (lit "a.py", MODIFY, sample_diff_headers, sample_document);
    (lit "b.py", NEW,
     lit "--git a/b.py b/b.py" ++ LF :: lit "new file mode 100644" ++ LF
       :: lit "--- /dev/null" ++ LF :: lit "+++ b/b.py",
     lit "@@ -0,0 +1 @@" ++ LF :: lit "+token = 3" ++ [LF]) ].

(** * Properties *)

(** ** Strings *)

Lemma char_in_spec (c : N) (s : pystr) : char_in c s = true <-> c ∈ s.
Proof.
  unfold char_in. rewrite existsb_exists. split.
  - intros (x & Hin & Heq). apply N.eqb_eq in Heq. subst x.
    by apply list_elem_of_In.
  - intros Hin. exists c. split; [by apply list_elem_of_In | apply N.eqb_refl].
Qed.

Lemma char_in_false (c : N) (s : pystr) : char_in c s = false <-> c ∉ s.
Proof.
  rewrite <- char_in_spec. destruct (char_in c s); split; congruence.
Qed.

Lemma rfind_char_absent (c : N) (s : pystr) : c ∉ s -> rfind_char c s = None.
Proof.
  induction s as [|x s IH]; intros Hnot; [done|].
  apply not_elem_of_cons in Hnot as [Hne Hnot]. simpl.
  rewrite (IH Hnot). destruct (N.eqb_spec x c); congruence.
Qed.

Lemma rfind_char_last (c : N) (before token : pystr) :
  c ∉ token -> rfind_char c (before ++ c :: token) = Some (length before).
Proof.
  intros Hnot. induction before as [|x before IH]; simpl.
  - rewrite (rfind_char_absent _ _ Hnot). by rewrite N.eqb_refl.
  - by rewrite IH.
Qed.

(** The last field of [rsplit(" ", 1)] is the text after the last
    separator. *)
Lemma last_item_rsplit_once (c : N) (before token : pystr) :
  c ∉ token -> last_item (rsplit_once c (before ++ c :: token)) = token.
Proof.
  intros Hnot. unfold rsplit_once. rewrite (rfind_char_last _ _ _ Hnot).
  simpl. change (c :: token) with ([c] ++ token). rewrite app_assoc.
  rewrite drop_app_length'; [done|]. rewrite length_app. simpl. lia.
Qed.

Lemma last_item_rsplit_once_whole (c : N) (token : pystr) :
  c ∉ token -> last_item (rsplit_once c token) = token.
Proof.
  intros Hnot. unfold rsplit_once. by rewrite (rfind_char_absent _ _ Hnot).
Qed.

Lemma rstrip_all (chars s : pystr) :
  Forall (fun c => char_in c chars = true) s -> rstrip chars s = [].
Proof.
  induction 1 as [|c s Hc _ IH]; [done|].
  unfold rstrip in *. simpl. by rewrite IH, Hc.
Qed.

(** [rstrip] removes a suffix of strippable characters and stops at the
    first character, from the right, that is not one. *)
Lemma rstrip_suffix (chars kept stripped : pystr) :
  Forall (fun c => char_in c chars = true) stripped ->
  (forall c, last kept = Some c -> char_in c chars = false) ->
  rstrip chars (kept ++ stripped) = kept.
Proof.
  intros Hs Hlast. induction kept as [|x kept IH]; simpl.
  - by apply rstrip_all.
  - unfold rstrip in *. simpl. destruct kept as [|y kept].
    + simpl in *. rewrite (rstrip_all chars stripped Hs : foldr _ _ _ = []).
      by rewrite (Hlast x eq_refl).
    + rewrite IH; [done|]. intros c Hc. apply Hlast. by rewrite last_cons_cons.
Qed.

(** ** The status letters of a header line *)

(** The status of a prefix is its last space-delimited token without
    the trailing score. *)
Lemma status_of_prefix_token (prefix before token status score : pystr) :
  prefix = token \/ prefix = before ++ SPACE :: token ->
  SPACE ∉ token ->
  token = status ++ score ->
  Forall (fun c => char_in c digits = true) score ->
  (forall c, last status = Some c -> char_in c digits = false) ->
  status_of_prefix prefix = status.
Proof.
  intros Hprefix Hspace -> Hscore Hlast. unfold status_of_prefix.
  destruct Hprefix as [-> | ->].
  - rewrite last_item_rsplit_once_whole by done. by apply rstrip_suffix.
  - rewrite last_item_rsplit_once by done. by apply rstrip_suffix.
Qed.

Lemma parse_patch_header_line_fields (line prefix name : pystr) (rest : list pystr) :
  split_char NUL (rstrip [NUL] line) = prefix :: name :: rest ->
  _parse_patch_header_line line =
    match spec_resolve_status (status_of_prefix prefix) with
    | Some mode => Ok (reported_name name rest, mode)
    | None =>
        Raise (ValueError (lit "Can't parse header line " ++ line
                             ++ lit ": unknown status " ++ status_of_prefix prefix))
    end.
Proof.
  intros Hfields. unfold _parse_patch_header_line. rewrite Hfields.
  unfold spec_resolve_status, spec_status_precedence, reported_name. simpl.
  repeat (case_match; simpl; try done).
Qed.

(** C1: the status of a header record, that is the last space-delimited
    token of its prefix without the trailing digits, is resolved by the
    precedence M, C, A, T, R, D; a status holding both M and D gives
    MODIFY. *)
Theorem parse_patch_header_line_precedence
    (line prefix name before token status score : pystr) (rest : list pystr) :
  split_char NUL (rstrip [NUL] line) = prefix :: name :: rest ->
  prefix = token \/ prefix = before ++ SPACE :: token ->
  SPACE ∉ token ->
  token = status ++ score ->
  Forall (fun c => char_in c digits = true) score ->
  (forall c, last status = Some c -> char_in c digits = false) ->
  _parse_patch_header_line line =
    match spec_resolve_status status with
    | Some mode => Ok (reported_name name rest, mode)
    | None =>
        Raise (ValueError (lit "Can't parse header line " ++ line
                             ++ lit ": unknown status " ++ status))
    end
  /\ (letter_M ∈ status -> letter_D ∈ status ->
      _parse_patch_header_line line = Ok (reported_name name rest, MODIFY)).
Proof.
  intros Hfields Hprefix Hspace Htoken Hscore Hlast.
  pose proof (status_of_prefix_token _ _ _ _ _ Hprefix Hspace Htoken Hscore Hlast)
    as Hstatus.
  rewrite (parse_patch_header_line_fields _ _ _ _ Hfields), Hstatus.
  split; [done|].
  intros HM _. apply char_in_spec in HM.
  unfold spec_resolve_status, spec_status_precedence. simpl. by rewrite HM.
Qed.

(** A merge commit with one parent deleting and the other modifying. *)
Lemma parse_patch_header_line_precedence_witness :
  _parse_patch_header_line
    (lit "::100644 000000 100644 1a2b3c4 0000000 5d6e7f8 MD" ++ NUL :: lit "src/app.py" ++ [NUL])
  = Ok (lit "src/app.py", MODIFY).
Proof.
  refine (proj2 (parse_patch_header_line_precedence
            (lit "::100644 000000 100644 1a2b3c4 0000000 5d6e7f8 MD"
               ++ NUL :: lit "src/app.py" ++ [NUL])
            (lit "::100644 000000 100644 1a2b3c4 0000000 5d6e7f8 MD")
            (lit "src/app.py")
            (lit "::100644 000000 100644 1a2b3c4 0000000 5d6e7f8")
            (lit "MD") (lit "MD") [] [] _ _ _ _ _ _) _ _).
  - reflexivity.
  - right. reflexivity.
  - apply char_in_false. reflexivity.
  - reflexivity.
  - constructor.
  - intros c Hc. vm_compute in Hc. injection Hc as <-. reflexivity.
  - apply char_in_spec. reflexivity.
  - apply char_in_spec. reflexivity.
Defined.

(** ** The transport payload *)

(** C7: the payload carries the file name itself up to 256 characters
    and its trailing 255 characters beyond; a name of 300 characters
    loses its first 45; document and filemode are passed unchanged. *)
Theorem scan_dict_payload (f : File) :
  (length (filename f) <= 256 -> sd_filename (scan_dict f) = filename f)
  /\ (256 < length (filename f) ->
      length (sd_filename (scan_dict f)) = 255
      /\ exists dropped, filename f = dropped ++ sd_filename (scan_dict f))
  /\ (length (filename f) = 300 ->
      sd_filename (scan_dict f) = drop 45 (filename f))
  /\ sd_document (scan_dict f) = document f
  /\ sd_filemode (scan_dict f) = filemode f.
Proof.
  unfold scan_dict, str_suffix. simpl. split_and!; try reflexivity.
  - intros Hle. apply Nat.leb_le in Hle. by rewrite Hle.
  - intros Hlt. apply Nat.leb_gt in Hlt. rewrite Hlt. split.
    + apply Nat.leb_gt in Hlt. rewrite length_drop. lia.
    + exists (take (length (filename f) - 255) (filename f)).
      by rewrite take_drop.
  - intros Hlen. rewrite Hlen. reflexivity.
Qed.

Lemma scan_dict_payload_witness :
  sd_filename (scan_dict (new_File (lit "secret = 1")
                            (replicate 45 97%N ++ replicate 255 98%N)))
  = replicate 255 98%N.
Proof.
  pose proof (scan_dict_payload
                (new_File (lit "secret = 1")
                   (replicate 45 97%N ++ replicate 255 98%N))) as (_ & _ & H300 & _).
  rewrite H300; reflexivity.
Defined.

(** ** The dict of a collection *)

Lemma dict_get_set_eq {V} (k : pystr) (v : V) (d : dict V) :
  dict_get k (dict_set k v d) = Some v.
Proof.
  induction d as [|[k' v'] d IH]; cbn [dict_get dict_set].
  - case_decide; congruence.
  - destruct (decide (k' = k)) as [->|Hne]; cbn [dict_get]; case_decide; congruence.
Qed.

Lemma dict_get_set_ne {V} (k k' : pystr) (v : V) (d : dict V) :
  k <> k' -> dict_get k' (dict_set k v d) = dict_get k' d.
Proof.
  intros Hne. induction d as [|[k0 v0] d IH]; cbn [dict_get dict_set].
  - case_decide; congruence.
  - destruct (decide (k0 = k)) as [->|Hne0]; cbn [dict_get];
      repeat case_decide; congruence.
Qed.

Lemma dict_keys_set {V} (k : pystr) (v : V) (d : dict V) :
  dict_keys (dict_set k v d) =
    if decide (k ∈ dict_keys d) then dict_keys d else dict_keys d ++ [k].
Proof.
  unfold dict_keys. induction d as [|[k' v'] d IH]; [done|].
  cbn [dict_set]. destruct (decide (k' = k)) as [->|Hne]; csimpl.
  - rewrite decide_True; [done|]. apply list_elem_of_here.
  - rewrite IH. destruct (decide (k ∈ d.*1)) as [Hin|Hnot].
    + rewrite decide_True; [done|]. by apply list_elem_of_further.
    + rewrite decide_False; [done|].
      intros [Heq|Hin]%elem_of_cons; [congruence | done].
Qed.

Lemma dict_get_elem_of {V} (k : pystr) (v : V) (d : dict V) :
  NoDup (dict_keys d) -> (k, v) ∈ d <-> dict_get k d = Some v.
Proof.
  unfold dict_keys. induction d as [|[k' v'] d IH];
    cbn [dict_get fmap list_fmap fst]; intros Hnd.
  - split; [by intros ?%elem_of_nil | done].
  - apply NoDup_cons in Hnd as [Hk' Hnd]. rewrite elem_of_cons.
    destruct (decide (k' = k)) as [->|Hne].
    + split.
      * intros [Heq|Hin]; [congruence|].
        exfalso. apply Hk'. apply list_elem_of_fmap. by exists (k, v).
      * intros [= ->]. by left.
    + rewrite <- (IH Hnd). split; [|by right].
      intros [Heq|Hin]; [congruence | done].
Qed.

Lemma dict_of_files_snoc (files : list File) (f : File) :
  dict_of_files (files ++ [f]) = dict_set (filename f) f (dict_of_files files).
Proof. unfold dict_of_files. by rewrite foldl_app. Qed.

Lemma dict_of_files_keys_NoDup (files : list File) :
  NoDup (dict_keys (dict_of_files files)).
Proof.
  induction files as [|f files IH] using rev_ind; [constructor|].
  rewrite dict_of_files_snoc, dict_keys_set. case_decide; [done|].
  apply NoDup_app. split_and!; [done | | apply NoDup_singleton].
  intros x Hx ->%list_elem_of_singleton. done.
Qed.

Lemma dict_set_key_is_filename (f : File) (d : dict File) :
  Forall (fun kv => filename kv.2 = kv.1) d ->
  Forall (fun kv => filename kv.2 = kv.1) (dict_set (filename f) f d).
Proof.
  induction 1 as [|[k v] d Hkv Hd IH]; cbn [dict_set].
  - by constructor.
  - case_decide; constructor; simpl in *; try done.
Qed.

Lemma dict_of_files_key_is_filename (files : list File) :
  Forall (fun kv => filename kv.2 = kv.1) (dict_of_files files).
Proof.
  induction files as [|f files IH] using rev_ind; [constructor|].
  rewrite dict_of_files_snoc. by apply dict_set_key_is_filename.
Qed.

Lemma dict_of_files_filenames (files : list File) :
  filename <$> dict_values (dict_of_files files) = dict_keys (dict_of_files files).
Proof.
  unfold dict_values, dict_keys.
  induction (dict_of_files_key_is_filename files) as [|[k v] d Hkv _ IH];
    [done|]. csimpl in *. by rewrite IH, Hkv.
Qed.

Lemma dict_of_files_get (files : list File) (name : pystr) :
  dict_get name (dict_of_files files) = last (named name files).
Proof.
  induction files as [|f files IH] using rev_ind; [done|].
  rewrite dict_of_files_snoc. unfold named in *. rewrite List.filter_app. simpl.
  case_bool_decide as Hname.
  - subst name. by rewrite dict_get_set_eq, last_snoc.
  - rewrite dict_get_set_ne by done. by rewrite app_nil_r.
Qed.

Lemma new_Files_unique (files : list File) :
  NoDup (filename <$> dict_values (Files_files (new_Files files))).
Proof.
  unfold Files_files, new_Files. simpl.
  rewrite dict_of_files_filenames. apply dict_of_files_keys_NoDup.
Qed.

(** C5: a collection never holds two units with the same file name; its
    units are, for each file name of the list it is built from, the
    last file of that name; filtering and path rewriting build
    collections with the same property. *)
Theorem files_unique_filenames (files : list File) :
  NoDup (filename <$> dict_values (Files_files (new_Files files)))
  /\ (forall f, f ∈ dict_values (Files_files (new_Files files)) <->
                last (named (filename f) files) = Some f)
  /\ (forall filter_func,
        NoDup (filename <$>
                 dict_values (Files_files (apply_filter (new_Files files) filter_func))))
  /\ (forall Path path_relative_to (root_path : Path) rewritten,
        Files_relative_to Path path_relative_to (new_Files files) root_path
          = Ok rewritten ->
        NoDup (filename <$> dict_values (Files_files rewritten))).
Proof.
  split_and!.
  - apply new_Files_unique.
  - intros f. unfold Files_files, new_Files. simpl.
    rewrite <- dict_of_files_get.
    rewrite <- (dict_get_elem_of _ _ _ (dict_of_files_keys_NoDup files)).
    unfold dict_values. rewrite list_elem_of_fmap. split.
    + intros ([k v] & -> & Hin). simpl.
      pose proof (dict_of_files_key_is_filename files) as Hall.
      rewrite Forall_forall in Hall. pose proof (Hall _ Hin) as Hk.
      simpl in Hk. by rewrite Hk.
    + intros Hin. by exists (filename f, f).
  - intros filter_func. apply new_Files_unique.
  - intros Path path_relative_to root_path rewritten Hrel.
    unfold Files_relative_to in Hrel.
    destruct (relative_to_each _ _ _ _) as [fs|e]; simpl in Hrel; [|done].
    injection Hrel as <-. apply new_Files_unique.
Qed.

Lemma files_unique_filenames_witness :
  CommitFile (lit "token = 2") (lit "a.py") MODIFY
    ∈ dict_values (Files_files (new_Files
        [ CommitFile (lit "token = 1") (lit "a.py") NEW;
          new_File (lit "x = 0") (lit "b.py");
          CommitFile (lit "token = 2") (lit "a.py") MODIFY ])).
Proof.
  apply (proj1 (proj2 (files_unique_filenames _))). reflexivity.
Defined.

(** ** Chunking *)

Lemma py_range_covers (n step : nat) :
  0 < step -> n <= (n + step - 1) / step * step.
Proof.
  intros Hstep.
  pose proof (Nat.div_mod (n + step - 1) step ltac:(lia)) as Hdm.
  pose proof (Nat.mod_upper_bound (n + step - 1) step ltac:(lia)) as Hmod.
  nia.
Qed.

Lemma py_range_tight (n step k : nat) :
  0 < step -> k < (n + step - 1) / step -> k * step < n.
Proof.
  intros Hstep Hk.
  pose proof (Nat.div_mod (n + step - 1) step ltac:(lia)) as Hdm.
  pose proof (Nat.mod_upper_bound (n + step - 1) step ltac:(lia)) as Hmod.
  nia.
Qed.

Lemma chunks_concat_take {A} (limit count : nat) (l : list A) :
  concat ((fun i => slice l i (i + limit)) <$> ((fun k => k * limit) <$> seq 0 count))
  = take (count * limit) l.
Proof.
  induction count as [|count IH]; [done|].
  rewrite seq_S, !fmap_app, concat_app, IH. simpl.
  rewrite app_nil_r. unfold slice.
  replace (count * limit + limit - count * limit) with limit by lia.
  rewrite take_take_drop. f_equal. lia.
Qed.

Lemma chunks_of_ok {A} (limit : nat) (l : list A) :
  0 < limit ->
  chunks_of limit l =
    Ok ((fun k => take limit (drop (k * limit) l))
          <$> seq 0 ((length l + limit - 1) / limit)).
Proof.
  intros Hlimit. unfold chunks_of, py_range.
  destruct limit as [|limit']; [lia|]. simpl mbind. unfold mbind, result_bind.
  f_equal. rewrite <- list_fmap_compose. apply list_fmap_ext.
  intros _ k _. simpl. unfold slice. f_equal. lia.
Qed.

(** C3: the payload list is cut into consecutive chunks: put back
    together in their order they give the list again, none is empty,
    none is longer than MULTI_DOCUMENT_LIMIT and all but the last are
    full; 2 * MULTI_DOCUMENT_LIMIT + 5 units give three chunks of sizes
    LIMIT, LIMIT and 5. *)
Theorem scan_chunks_partition (MULTI_DOCUMENT_LIMIT : nat) (self : Files) :
  0 < MULTI_DOCUMENT_LIMIT ->
  exists chunks,
    chunks_of MULTI_DOCUMENT_LIMIT (scannable_list self) = Ok chunks
    /\ concat chunks = scannable_list self
    /\ Forall (fun chunk => 0 < length chunk <= MULTI_DOCUMENT_LIMIT) chunks
    /\ (forall i chunk, chunks !! i = Some chunk -> S i < length chunks ->
          length chunk = MULTI_DOCUMENT_LIMIT)
    /\ (5 <= MULTI_DOCUMENT_LIMIT ->
        length (dict_values (Files_files self)) = MULTI_DOCUMENT_LIMIT * 2 + 5 ->
        length <$> chunks = [MULTI_DOCUMENT_LIMIT; MULTI_DOCUMENT_LIMIT; 5]).
Proof.
  intros Hlimit. set (l := scannable_list self). set (L := MULTI_DOCUMENT_LIMIT) in *.
  eexists. split; [by apply chunks_of_ok|].
  set (count := (length l + L - 1) / L).
  assert (Hlen : forall k, k < count ->
            length (take L (drop (k * L) l)) = L `min` (length l - k * L)).
  { intros k _. by rewrite length_take, length_drop. }
  split_and!.
  - pose proof (chunks_concat_take L count l) as Hcat.
    rewrite <- list_fmap_compose in Hcat.
    erewrite list_fmap_ext; [rewrite Hcat|].
    + apply take_ge. by apply py_range_covers.
    + intros _ k _. simpl. unfold slice. f_equal. lia.
  - apply Forall_fmap, Forall_forall. intros k Hk.
    apply list_elem_of_In, in_seq in Hk. simpl.
    rewrite Hlen by lia.
    pose proof (py_range_tight (length l) L k Hlimit ltac:(lia)). lia.
  - intros i chunk Hi Hnext. rewrite length_fmap, length_seq in Hnext.
    rewrite list_lookup_fmap in Hi.
    rewrite lookup_seq_lt in Hi by lia. simpl in Hi. injection Hi as <-.
    rewrite Hlen by lia.
    pose proof (py_range_tight (length l) L (S i) Hlimit Hnext). lia.
  - intros Hfive Hunits.
    assert (Hl : length l = L * 2 + 5).
    { subst l. unfold scannable_list. by rewrite length_fmap. }
    assert (Hcount : count = 3).
    { subst count. rewrite Hl.
      replace (L * 2 + 5 + L - 1) with (L + 4 + 2 * L) by lia.
      rewrite Nat.div_add by lia.
      destruct (decide (L = 5)) as [->|Hne]; [done|].
      replace (L + 4) with (4 + 1 * L) by lia.
      rewrite Nat.div_add by lia. rewrite Nat.div_small by lia. lia. }
    rewrite Hcount. simpl. rewrite !length_take, !length_drop, Hl.
    repeat f_equal; lia.
Qed.

(** Twenty documents per request, forty-five units. *)
Lemma scan_chunks_partition_witness :
  exists chunks,
    chunks_of 20 (scannable_list
                    (new_Files ((fun i => new_File (lit "k = 1") (str_of_nat i))
                                  <$> seq 0 45))) = Ok chunks
    /\ length <$> chunks = [20; 20; 5].
Proof.
  destruct (scan_chunks_partition 20
              (new_Files ((fun i => new_File (lit "k = 1") (str_of_nat i))
                            <$> seq 0 45)))
    as (chunks & Hchunks & _ & _ & _ & Hsizes); [lia|].
  exists chunks. split; [exact Hchunks|].
  apply Hsizes; [lia | vm_compute; reflexivity].
Defined.

(** ** Results of sub-scans *)

Section SubScans.
Context {ScanResult IaCScanResult : Type}.
Implicit Types (self sub : ScanCollection ScanResult IaCScanResult).
Implicit Types subs : list (ScanCollection ScanResult IaCScanResult).

Lemma sub_scan_results_all subs :
  Forall (fun sub => is_Some (sc_results sub)) subs ->
  sub_scan_results subs = (concat (own_results <$> subs), None).
Proof.
  induction 1 as [|sub subs [r Hr] _ IH]; [done|].
  simpl. unfold own_results at 1. by rewrite Hr, IH.
Qed.

Lemma sub_scan_results_none subs sub :
  sub ∈ subs -> sc_results sub = None ->
  exists yielded, sub_scan_results subs = (yielded, Some attribute_error_results).
Proof.
  intros Hin Hnone. induction Hin as [sub subs|sub other subs _ IH]; simpl.
  - rewrite Hnone. by eexists.
  - destruct (sc_results other) as [r|]; [|by eexists].
    destruct (IH Hnone) as [ys ->]. by eexists.
Qed.

(** C10: with a non-empty list of sub-scans, [get_all_results] yields
    the results of every sub-scan when each has results, and ends with
    an attribute error as soon as one has [results = None];
    [scans_with_results] leaves such sub-scans out instead. *)
Theorem get_all_results_needs_sub_results self first others :
  scans self = Some (first :: others) ->
  ((forall sub, sub ∈ first :: others -> is_Some (sc_results sub)) ->
     get_all_results self =
       (own_results self ++ concat (own_results <$> first :: others), None))
  /\ (forall sub, sub ∈ first :: others -> sc_results sub = None ->
        exists yielded,
          get_all_results self = (yielded, Some attribute_error_results))
  /\ scans_with_results self =
       List.filter (fun sub => truthy_results (sc_results sub)) (first :: others)
  /\ (forall sub, sc_results sub = None -> sub ∉ scans_with_results self).
Proof.
  intros Hscans. unfold get_all_results, scans_with_results. rewrite Hscans.
  fold (own_results self). split_and!.
  - intros Hall. rewrite sub_scan_results_all; [done|].
    by apply Forall_forall.
  - intros sub Hin Hnone.
    destruct (sub_scan_results_none _ _ Hin Hnone) as [ys ->]. by eexists.
  - done.
  - intros sub Hnone Hin. apply list_elem_of_In, filter_In in Hin as [_ Htrue].
    by rewrite Hnone in Htrue.
Qed.
End SubScans.

(** A commit scan without results among two sub-scans. *)
Lemma get_all_results_needs_sub_results_witness :
  let result := {| content := lit "key"; r_filemode := NEW;
                   r_filename := lit "a.py"; scan := tt |} in
  let good := mkScanCollection unit unit (lit "c1") (lit "commit")
                (Some {| results := [result]; errors := [] |}) None None None None in
  let bad := mkScanCollection unit unit (lit "c2") (lit "commit")
               None None None None None in
  let range := mkScanCollection unit unit (lit "r") (lit "commit-range")
                 None (Some [good; bad]) None None None in
  (exists yielded, get_all_results range = (yielded, Some attribute_error_results))
  /\ scans_with_results range = [good].
Proof.
  intros result good bad range.
  pose proof (get_all_results_needs_sub_results range good [bad] eq_refl)
    as (_ & Hfail & Hwith & _).
  split.
  - apply (Hfail bad); [|reflexivity]. apply list_elem_of_further, list_elem_of_here.
  - rewrite Hwith. reflexivity.
Defined.

(** ** Pre-push diff scan *)

Section PrePushProperties.
Context {Incident : Type} `{EqDecision Incident}.
Implicit Types current baseline : list Incident.

Lemma foldl_append_each (acc l : list Incident) :
  foldl (fun acc incident => acc ++ [incident]) acc l = acc ++ l.
Proof.
  revert acc. induction l as [|x l IH]; intros acc; simpl.
  - by rewrite app_nil_r.
  - rewrite IH. by rewrite <- app_assoc.
Qed.

Lemma create_diff_scan_dict_result (scan : IaCDiffScanCollection Incident)
    (r : DiffResult Incident) :
  result_ scan = Some r ->
  create_diff_scan_dict scan =
    {| added_vulns := new r;
       persisting_vulns := unchanged r;
       removed_vulns := deleted r |}.
Proof.
  intros Hr. unfold create_diff_scan_dict. rewrite Hr.
  by rewrite !foldl_append_each.
Qed.

Lemma reconcile_empty_baseline current :
  reconcile [] current = {| new := current; unchanged := []; deleted := [] |}.
Proof.
  unfold reconcile. f_equal.
  - induction current as [|x l IH]; [done|]. cbn [List.filter].
    rewrite bool_decide_true by apply not_elem_of_nil. by rewrite IH.
  - induction current as [|x l IH]; [done|]. cbn [List.filter].
    by rewrite bool_decide_false by (intros []%not_elem_of_nil).
Qed.

(** C9: when the remote commit is the zero SHA or a ["~1"] reference,
    the pre-push scan reconciles against an empty baseline: every
    current finding is new, nothing is unchanged or deleted; and the
    added, persisting and removed lists of the output are the new,
    unchanged and deleted sets of the reconciler. *)
Theorem pre_push_absent_baseline (findings_at : pystr -> list Incident)
    current (remote_commit : pystr) :
  is_Some (str_find (lit "~1") remote_commit) \/ remote_commit = EMPTY_SHA ->
  result_ (scan_pre_push_cmd findings_at current remote_commit)
    = Some {| new := current; unchanged := []; deleted := [] |}
  /\ create_diff_scan_dict (scan_pre_push_cmd findings_at current remote_commit)
     = {| added_vulns := current; persisting_vulns := []; removed_vulns := [] |}
  /\ (forall (scan : IaCDiffScanCollection Incident) r,
        result_ scan = Some r ->
        create_diff_scan_dict scan =
          {| added_vulns := new r;
             persisting_vulns := unchanged r;
             removed_vulns := deleted r |}).
Proof.
  intros Habsent.
  assert (Hres : result_ (scan_pre_push_cmd findings_at current remote_commit)
                 = Some {| new := current; unchanged := []; deleted := [] |}).
  { unfold scan_pre_push_cmd, iac_scan_diff. simpl.
    destruct Habsent as [Htilde | Hzero].
    - rewrite (bool_decide_true _ Htilde). simpl. by rewrite reconcile_empty_baseline.
    - rewrite (bool_decide_true (remote_commit = EMPTY_SHA) Hzero), orb_true_r.
      by rewrite reconcile_empty_baseline. }
  split_and!.
  - exact Hres.
  - by rewrite (create_diff_scan_dict_result _ _ Hres).
  - apply create_diff_scan_dict_result.
Qed.
End PrePushProperties.

(** The first push of a branch with one finding. *)
Lemma pre_push_absent_baseline_witness :
  create_diff_scan_dict
    (scan_pre_push_cmd (fun _ => [1; 2]) [7] (replicate 40 48%N))
  = {| added_vulns := [7]; persisting_vulns := []; removed_vulns := [] |}.
Proof.
  apply (pre_push_absent_baseline (Incident := nat)). right. reflexivity.
Defined.

(** ** The scan loop *)

Lemma concat_Permutation {A} (ls ls' : list (list A)) :
  ls ≡ₚ ls' -> concat ls ≡ₚ concat ls'.
Proof.
  induction 1 as [|l ls ls' _ IH|l l' ls|ls1 ls2 ls3 _ IH1 _ IH2]; simpl.
  - done.
  - by rewrite IH.
  - rewrite !app_assoc. f_equiv. apply Permutation_app_comm.
  - by rewrite IH1.
Qed.

Lemma omap_lookup_seq_from {A} (before l : list A) :
  omap (fun i => (before ++ l) !! i) (seq (length before) (length l)) = l.
Proof.
  revert before. induction l as [|x l IH]; intros before; [done|].
  simpl. rewrite list_lookup_middle by done. f_equal.
  specialize (IH (before ++ [x])). rewrite <- app_assoc in IH. simpl in IH.
  rewrite length_app in IH. simpl in IH. by rewrite Nat.add_1_r in IH.
Qed.

Lemma omap_lookup_seq {A} (l : list A) :
  omap (fun i => l !! i) (seq 0 (length l)) = l.
Proof. apply (omap_lookup_seq_from [] l). Qed.

(** Taking the submitted calls in any complete order gives the same
    calls, reordered. *)
Lemma as_completed_Permutation {A} (futures : list A) (as_completed : list nat) :
  as_completed ≡ₚ seq 0 (length futures) ->
  omap (fun i => futures !! i) as_completed ≡ₚ futures.
Proof. intros ->. by rewrite omap_lookup_seq. Qed.

Lemma concat_fmap_nil {A B} (f : A -> list B) (l : list A) :
  (forall j y, l !! j = Some y -> f y = []) -> concat (f <$> l) = [].
Proof.
  induction l as [|a l IH]; intros Hall; [done|].
  csimpl. rewrite (Hall 0 a eq_refl). simpl. apply IH.
  intros j y Hy. by apply (Hall (S j) y).
Qed.

Lemma concat_fmap_single {A B} (f : A -> list B) (l : list A) (k : nat) (x : A) :
  l !! k = Some x ->
  (forall j y, j <> k -> l !! j = Some y -> f y = []) ->
  concat (f <$> l) = f x.
Proof.
  revert k. induction l as [|a l IH]; intros k Hk Hothers; [done|].
  csimpl. destruct k as [|k]; simpl in Hk.
  - injection Hk as ->. rewrite concat_fmap_nil; [by rewrite app_nil_r|].
    intros j y Hy. by apply (Hothers (S j) y).
  - rewrite (Hothers 0 a) by done. simpl. apply (IH k Hk).
    intros j y Hj Hy. apply (Hothers (S j) y); [lia | done].
Qed.

Section ScanProperties.
Context {ScanResult PolicyBreak IgnoredMatch Cache Headers : Type}.
Variable has_policy_breaks : ScanResult -> bool.
Variable policy_breaks : ScanResult -> list PolicyBreak.
Variable remove_ignored_from_result :
  ScanResult -> list IgnoredMatch -> ScanResult.
Variable remove_results_from_ignore_detectors :
  ScanResult -> option (list pystr) -> ScanResult.
Variable cache_purge : Cache -> Cache.
Variable cache_add_found_policy_break : PolicyBreak -> pystr -> Cache -> Cache.
Variable cache_save : Cache -> Cache.
Variable handle_scan_chunk_error :
  ScanResponse ScanResult -> list ScanDict -> option exn.
Variable matches_ignore : list IgnoredMatch.
Variable ignored_detectors : option (list pystr).

Local Abbreviation record :=
  (record_scan_results has_policy_breaks policy_breaks remove_ignored_from_result
     remove_results_from_ignore_detectors cache_add_found_policy_break
     matches_ignore ignored_detectors).
Local Abbreviation step :=
  (scan_completed has_policy_breaks policy_breaks remove_ignored_from_result
     remove_results_from_ignore_detectors cache_add_found_policy_break
     handle_scan_chunk_error matches_ignore ignored_detectors).
Local Abbreviation loop :=
  (scan_all_completed has_policy_breaks policy_breaks remove_ignored_from_result
     remove_results_from_ignore_detectors cache_add_found_policy_break
     handle_scan_chunk_error matches_ignore ignored_detectors).
Local Abbreviation results_of_chunk :=
  (chunk_results has_policy_breaks remove_ignored_from_result
     remove_results_from_ignore_detectors matches_ignore ignored_detectors).
Local Abbreviation results_of :=
  (completed_results has_policy_breaks remove_ignored_from_result
     remove_results_from_ignore_detectors matches_ignore ignored_detectors).
Local Abbreviation settled := (settles handle_scan_chunk_error).

Implicit Types st : ScanState ScanResult Cache.
Implicit Types chunk : list ScanDict.

(** The inner loop appends the results of the chunk and touches nothing
    else but the cache. *)
Lemma record_scan_results_ok chunk index scan_results st st' :
  record chunk index scan_results st = Ok st' ->
  st_results st' = st_results st ++ results_of_chunk (drop index chunk) scan_results
  /\ st_errors st' = st_errors st
  /\ st_progress st' = st_progress st.
Proof.
  revert index st. induction scan_results as [|scanned rest IH]; intros index st.
  - simpl. intros [= <-]. unfold chunk_results.
    rewrite zip_with_nil_r. simpl. by rewrite app_nil_r.
  - cbn [record_scan_results]. unfold chunk_results.
    destruct (has_policy_breaks _) eqn:Hbreaks.
    + destruct (chunk !! index) as [file|] eqn:Hfile; [|done].
      intros Hrec. apply IH in Hrec as (-> & -> & ->). simpl.
      rewrite (drop_S _ _ _ Hfile). csimpl. rewrite Hbreaks.
      by rewrite <- app_assoc.
    + intros Hrec. apply IH in Hrec as (-> & -> & ->). split_and!; try done.
      f_equal. destruct (chunk !! index) as [file|] eqn:Hfile.
      * rewrite (drop_S _ _ _ Hfile). csimpl. by rewrite Hbreaks.
      * apply lookup_ge_None in Hfile.
        rewrite !drop_ge by lia. done.
Qed.

(** It does not raise when every result has a document. *)
Lemma record_scan_results_total chunk index scan_results st :
  index + length scan_results <= length chunk ->
  exists st', record chunk index scan_results st = Ok st'.
Proof.
  revert index st. induction scan_results as [|scanned rest IH]; intros index st Hlen.
  - by eexists.
  - cbn [record_scan_results]. simpl in Hlen.
    destruct (has_policy_breaks _).
    + destruct (lookup_lt_is_Some_2 chunk index ltac:(lia)) as [file ->].
      apply IH. lia.
    + apply IH. lia.
Qed.

Lemma scan_completed_ok st st' completed :
  step st completed = Ok st' ->
  st_results st' = st_results st ++ results_of completed
  /\ st_errors st' = st_errors st ++ completed_errors completed
  /\ st_progress st' = st_progress st ++ [completed.1].
Proof.
  destruct completed as [chunk future]. unfold scan_completed, completed_results,
    completed_errors. simpl.
  destruct future as [[code scan_results | code detail] | exception]; simpl.
  - destruct (success (MultiScanResult code scan_results)); simpl.
    + intros Hrec. apply record_scan_results_ok in Hrec as (-> & -> & ->).
      by rewrite app_nil_r.
    + destruct (handle_scan_chunk_error _ _); [done|]. intros [= <-]. simpl.
      by rewrite !app_nil_r.
  - destruct (success (Detail code detail)); simpl; [done|].
    destruct (handle_scan_chunk_error _ _); [done|]. intros [= <-]. simpl.
    by rewrite !app_nil_r.
  - unfold success. simpl.
    destruct (handle_scan_chunk_error _ _); [done|]. intros [= <-]. simpl.
    by rewrite app_nil_r.
Qed.

Lemma scan_completed_total st completed :
  settled completed -> exists st', step st completed = Ok st'.
Proof.
  destruct completed as [chunk future]. unfold settles, scan_completed. simpl.
  destruct future as [[code scan_results | code detail] | exception]; simpl.
  - destruct (success (MultiScanResult code scan_results)); simpl.
    + intros Hlen. by apply record_scan_results_total.
    + intros ->. by eexists.
  - intros [-> ->]. by eexists.
  - unfold success. simpl. intros ->. by eexists.
Qed.

Lemma scan_all_completed_ok st st' completed :
  loop st completed = Ok st' ->
  st_results st' = st_results st ++ concat (results_of <$> completed)
  /\ st_errors st' = st_errors st ++ concat (completed_errors <$> completed)
  /\ st_progress st' = st_progress st ++ completed.*1.
Proof.
  revert st. induction completed as [|c completed IH]; intros st.
  - simpl. intros [= <-]. by rewrite !app_nil_r.
  - cbn [scan_all_completed]. destruct (step st c) as [st1|e] eqn:Hstep; [|done].
    simpl. intros Hloop. apply IH in Hloop as (-> & -> & ->).
    apply scan_completed_ok in Hstep as (-> & -> & ->).
    csimpl. by rewrite <- !app_assoc.
Qed.

Lemma scan_all_completed_total st completed :
  Forall settled completed -> exists st', loop st completed = Ok st'.
Proof.
  intros Hall. revert st. induction Hall as [|c completed Hc _ IH]; intros st.
  - by eexists.
  - cbn [scan_all_completed].
    destruct (scan_completed_total st c Hc) as [st1 ->]. simpl. apply IH.
Qed.

(** The results of a chunk keep the order of its documents. *)
Lemma chunk_results_sublist chunk scan_results :
  (r_filename <$> results_of_chunk chunk scan_results)
    `sublist_of` (sd_filename <$> chunk).
Proof.
  unfold chunk_results. revert scan_results.
  induction chunk as [|file chunk IH]; intros [|scanned rest]; csimpl;
    try apply sublist_nil_l.
  destruct (has_policy_breaks _); csimpl.
  - apply sublist_skip, IH.
  - apply sublist_cons, IH.
Qed.
Variable MULTI_DOCUMENT_LIMIT : nat.
Variable multi_content_scan : list ScanDict -> Headers -> Future ScanResult.

Local Abbreviation scan_files :=
  (Files_scan MULTI_DOCUMENT_LIMIT has_policy_breaks policy_breaks
     remove_ignored_from_result remove_results_from_ignore_detectors
     cache_purge cache_add_found_policy_break cache_save
     handle_scan_chunk_error multi_content_scan).

(** When every finished call can be processed, the scan returns, with
    the accumulators filled in completion order. *)
Lemma Files_scan_settled (self : Files) (cache : Cache) (headers : Headers)
    (as_completed : list nat) (chunks : list (list ScanDict)) :
  chunks_of MULTI_DOCUMENT_LIMIT (scannable_list self) = Ok chunks ->
  Forall settled (omap (fun i => future_to_scan multi_content_scan headers chunks !! i)
                    as_completed) ->
  exists outcome cache' progress,
    scan_files self cache matches_ignore headers ignored_detectors as_completed
      = Ok (outcome, cache', progress)
    /\ results outcome =
         concat (results_of <$>
                   omap (fun i => future_to_scan multi_content_scan headers chunks !! i)
                     as_completed)
    /\ errors outcome =
         concat (completed_errors <$>
                   omap (fun i => future_to_scan multi_content_scan headers chunks !! i)
                     as_completed)
    /\ progress =
         (omap (fun i => future_to_scan multi_content_scan headers chunks !! i)
            as_completed).*1.
Proof.
  intros Hchunks Hsettled. unfold Files_scan. rewrite Hchunks. simpl.
  destruct (scan_all_completed_total
              {| st_results := []; st_errors := [];
                 st_cache := cache_purge cache; st_progress := [] |} _ Hsettled)
    as [st' Hloop].
  rewrite Hloop. simpl. apply scan_all_completed_ok in Hloop as (Hr & He & Hp).
  do 3 eexists. split; [reflexivity|]. simpl. by rewrite Hr, He, Hp.
Qed.
(** C2: when the call of one chunk raises and all the others succeed
    with one result per document, the scan returns; its errors are the
    single entry listing the file names and filemodes of the failed
    chunk, its results are those of all the other chunks, and every
    chunk was processed.  The error handler is assumed to return for
    the failed chunk. *)
Theorem scan_one_transport_failure (self : Files) (cache : Cache)
    (headers : Headers) (as_completed : list nat)
    (chunks : list (list ScanDict)) (k : nat) (failed_chunk : list ScanDict)
    (exception : exn) :
  chunks_of MULTI_DOCUMENT_LIMIT (scannable_list self) = Ok chunks ->
  as_completed ≡ₚ seq 0 (length chunks) ->
  chunks !! k = Some failed_chunk ->
  multi_content_scan failed_chunk headers = Failed exception ->
  handle_scan_chunk_error (Detail None (str_exn exception)) failed_chunk = None ->
  (forall j chunk, j <> k -> chunks !! j = Some chunk ->
     exists scan_results,
       multi_content_scan chunk headers
         = Returned (MultiScanResult (Some 200%Z) scan_results)
       /\ length scan_results = length chunk) ->
  exists outcome cache' progress,
    scan_files self cache matches_ignore headers ignored_detectors as_completed
      = Ok (outcome, cache', progress)
    /\ errors outcome =
         [ {| files := (fun file => (sd_filename file, sd_filemode file)) <$> failed_chunk;
              description := str_exn exception |} ]
    /\ results outcome ≡ₚ
         concat (results_of <$> future_to_scan multi_content_scan headers chunks)
    /\ (forall j chunk scan_results r,
          j <> k -> chunks !! j = Some chunk ->
          multi_content_scan chunk headers
            = Returned (MultiScanResult (Some 200%Z) scan_results) ->
          r ∈ results_of_chunk chunk scan_results -> r ∈ results outcome)
    /\ progress ≡ₚ chunks.
Proof.
  intros Hchunks Hperm Hk Hfailed Hhandler Hothers.
  set (futures := future_to_scan multi_content_scan headers chunks).
  assert (Hlen : length futures = length chunks).
  { subst futures. unfold future_to_scan. by rewrite length_fmap. }
  assert (Hcompleted : omap (fun i => futures !! i) as_completed ≡ₚ futures).
  { apply as_completed_Permutation. by rewrite Hlen. }
  assert (Hsettled : Forall settled futures).
  { apply Forall_lookup. intros j [chunk future] Hj.
    subst futures. unfold future_to_scan in Hj. rewrite list_lookup_fmap in Hj.
    destruct (chunks !! j) as [chunk'|] eqn:Hchunk; [|done].
    simpl in Hj. injection Hj as <- <-. unfold settles. simpl.
    destruct (decide (j = k)) as [->|Hne].
    - rewrite Hk in Hchunk. injection Hchunk as <-. by rewrite Hfailed.
    - destruct (Hothers j chunk' Hne Hchunk) as (rs & -> & Hrs). simpl. lia. }
  destruct (Files_scan_settled self cache headers as_completed chunks Hchunks)
    as (outcome & cache' & progress & Hscan & Hres & Herr & Hprog).
  { fold futures. by rewrite Hcompleted. }
  fold futures in Hres, Herr, Hprog.
  assert (Hresults : results outcome ≡ₚ concat (results_of <$> futures)).
  { rewrite Hres. apply concat_Permutation. by rewrite Hcompleted. }
  exists outcome, cache', progress. split_and!.
  - exact Hscan.
  - apply Permutation_singleton_r. rewrite Herr.
    etrans; [apply concat_Permutation; by rewrite Hcompleted|].
    rewrite (concat_fmap_single completed_errors futures k
               (failed_chunk, Failed exception)).
    + done.
    + subst futures. unfold future_to_scan.
      by rewrite list_lookup_fmap, Hk, <- Hfailed.
    + intros j [chunk future] Hne Hj. subst futures. unfold future_to_scan in Hj.
      rewrite list_lookup_fmap in Hj.
      destruct (chunks !! j) as [chunk'|] eqn:Hchunk; [|done].
      simpl in Hj. injection Hj as <- <-.
      destruct (Hothers j chunk' Hne Hchunk) as (rs & Hr & _).
      unfold completed_errors. simpl. by rewrite Hr.
  - exact Hresults.
  - intros j chunk scan_results r Hne Hj Hr Hin. rewrite Hresults.
    apply list_elem_of_In, in_concat. exists (results_of_chunk chunk scan_results).
    split; [|by apply list_elem_of_In].
    apply list_elem_of_In, list_elem_of_fmap.
    exists (chunk, Returned (MultiScanResult (Some 200%Z) scan_results)).
    split; [done|]. apply list_elem_of_lookup. exists j.
    subst futures. unfold future_to_scan. by rewrite list_lookup_fmap, Hj, <- Hr.
  - rewrite Hprog, Hcompleted. subst futures. unfold future_to_scan.
    rewrite <- list_fmap_compose. by rewrite list_fmap_id.
Qed.

(** C8, as the code has it: when every finished call can be processed,
    the scan returns and the accumulated results are the results of the
    chunks in the order in which their calls completed; within each
    chunk they follow the order of its documents. *)
Theorem scan_results_follow_completion (self : Files) (cache : Cache)
    (headers : Headers) (as_completed : list nat)
    (chunks : list (list ScanDict)) :
  chunks_of MULTI_DOCUMENT_LIMIT (scannable_list self) = Ok chunks ->
  Forall settled (future_to_scan multi_content_scan headers chunks) ->
  exists outcome cache' progress,
    scan_files self cache matches_ignore headers ignored_detectors as_completed
      = Ok (outcome, cache', progress)
    /\ results outcome =
         concat (results_of <$>
                   omap (fun i => future_to_scan multi_content_scan headers chunks !! i)
                     as_completed)
    /\ progress =
         (omap (fun i => future_to_scan multi_content_scan headers chunks !! i)
            as_completed).*1
    /\ (forall chunk scan_results,
          (r_filename <$> results_of_chunk chunk scan_results)
            `sublist_of` (sd_filename <$> chunk)).
Proof.
  intros Hchunks Hsettled.
  destruct (Files_scan_settled self cache headers as_completed chunks Hchunks)
    as (outcome & cache' & progress & Hscan & Hres & _ & Hprog).
  { apply Forall_forall. intros completed Hin.
    apply list_elem_of_omap in Hin as (i & _ & Hi).
    rewrite Forall_lookup in Hsettled. by apply (Hsettled i). }
  exists outcome, cache', progress. split_and!; try done.
  apply chunk_results_sublist.
Qed.
End ScanProperties.

(** Five units in chunks of two; the call for the second chunk fails
    and completes between the two others. *)
Lemma scan_one_transport_failure_witness :
  exists outcome cache' progress,
    sample_scan 2 (lit "file2") (sample_files 5) [2; 0; 1]
      = Ok (outcome, cache', progress)
    /\ errors outcome =
         [ {| files := [(lit "file2", FILE); (lit "file3", FILE)];
              description := lit "Connection reset by peer" |} ].
Proof.
  unfold sample_scan.
  edestruct (scan_one_transport_failure (IgnoredMatch := unit)
               (fun scanned => 0 <? scanned) (fun scanned => seq 0 scanned)
               (fun scanned _ => scanned) (fun scanned _ => scanned)
               (fun _ : list (nat * pystr) => [])
               (fun policy_break name cache => cache ++ [(policy_break, name)])
               (fun cache : list (nat * pystr) => cache)
               spec_handle_scan_chunk_error [] None 2 (sample_client (lit "file2"))
               (new_Files (sample_files 5)) [] tt [2; 0; 1]
               [ [sample_payload 0; sample_payload 1];
                 [sample_payload 2; sample_payload 3];
                 [sample_payload 4] ]
               1 [sample_payload 2; sample_payload 3]
               (OtherError (lit "Connection reset by peer")))
    as (outcome & cache' & progress & Hscan & Herrors & _).
  - vm_compute. reflexivity.
  - simpl. apply (Permutation_cons_append [0; 1] 2).
  - reflexivity.
  - reflexivity.
  - reflexivity.
  - intros [|[|[|j]]] chunk Hne Hchunk; try done; injection Hchunk as <-;
      eexists; split; reflexivity.
  - exists outcome, cache', progress. split; [exact Hscan | exact Herrors].
Defined.

(** Twenty-one units in chunks of twenty; the second call completes
    first. *)
Lemma scan_results_follow_completion_witness :
  exists outcome cache' progress,
    sample_scan 20 (lit "none") (sample_files 21) [1; 0]
      = Ok (outcome, cache', progress)
    /\ r_filename <$> results outcome
       = lit "file20" :: (filename <$> sample_files 20).
Proof.
  unfold sample_scan.
  edestruct (scan_results_follow_completion (IgnoredMatch := unit)
               (fun scanned => 0 <? scanned) (fun scanned => seq 0 scanned)
               (fun scanned _ => scanned) (fun scanned _ => scanned)
               (fun _ : list (nat * pystr) => [])
               (fun policy_break name cache => cache ++ [(policy_break, name)])
               (fun cache : list (nat * pystr) => cache)
               spec_handle_scan_chunk_error [] None 20 (sample_client (lit "none"))
               (new_Files (sample_files 21)) [] tt [1; 0]
               [sample_payload <$> seq 0 20; [sample_payload 20]])
    as (outcome & cache' & progress & Hscan & Hresults & _).
  - vm_compute. reflexivity.
  - vm_compute. repeat constructor.
  - exists outcome, cache', progress. split; [exact Hscan|].
    rewrite Hresults. vm_compute. reflexivity.
Defined.

(** C8 fails as stated: the same scan gives its results in another
    order when the second chunk completes before the first, and that
    order is not the order of the units. *)
Lemma scan_results_order_counterexample :
  exists first_outcome first_cache first_progress
         second_outcome second_cache second_progress,
    sample_scan 20 (lit "none") (sample_files 21) [0; 1]
      = Ok (first_outcome, first_cache, first_progress)
    /\ sample_scan 20 (lit "none") (sample_files 21) [1; 0]
       = Ok (second_outcome, second_cache, second_progress)
    /\ r_filename <$> results first_outcome = filename <$> sample_files 21
    /\ r_filename <$> results second_outcome <> filename <$> sample_files 21.
Proof.
  do 6 eexists. split_and!.
  - vm_compute. reflexivity.
  - vm_compute. reflexivity.
  - vm_compute. reflexivity.
  - vm_compute. discriminate.
Qed.

(** ** The size limit *)

Section SizeLimit.
Local Open Scope Z_scope.

Lemma round53_exact (m e : Z) :
  0 <= m < 2 ^ 53 -> round53 m e = {| fmant := m; fexp := e |}.
Proof.
  intros [Hm0 Hm]. unfold round53. rewrite Z.abs_eq by lia.
  destruct (Z.leb_spec (Z.log2 m - 52) 0) as [_|Hgt]; [done|].
  assert (0 < m) by (destruct (Z.eq_dec m 0) as [->|]; [simpl in Hgt|]; lia).
  assert (Z.log2 m < 53) by (apply Z.log2_lt_pow2; lia). lia.
Qed.

Lemma round53_upper (m e : Z) :
  2 ^ 53 <= m ->
  exists q,
    round53 m e = {| fmant := q; fexp := e + (Z.log2 m - 52) |}
    /\ 0 < Z.log2 m - 52
    /\ 2 ^ (Z.log2 m - 52) * 2 ^ 52 <= m
    /\ q * 2 ^ (Z.log2 m - 52) <= m + 2 ^ (Z.log2 m - 52).
Proof.
  intros Hm. unfold round53. rewrite Z.abs_eq by lia.
  assert (Hlog : 53 <= Z.log2 m) by (apply Z.log2_le_pow2; lia).
  set (excess := Z.log2 m - 52) in *.
  destruct (Z.leb_spec excess 0) as [Hle|Hgt]; [lia|].
  rewrite Z.sgn_pos by lia.
  set (q := Z.shiftr m excess).
  assert (Hq : q * 2 ^ excess <= m).
  { subst q. rewrite Z.shiftr_div_pow2 by lia. rewrite Z.mul_comm.
    apply Z.mul_div_le. lia. }
  assert (Hpow : 2 ^ excess * 2 ^ 52 <= m).
  { rewrite <- Z.pow_add_r by lia. replace (excess + 52) with (Z.log2 m) by lia.
    apply Z.log2_spec. lia. }
  eexists. split; [reflexivity|]. split_and!; try done.
  assert (0 < 2 ^ excess) by lia.
  destruct (_ || _); nia.
Qed.

Lemma size_limit_exceeded (MAX_FILE_SIZE file_size : Z) :
  0 <= MAX_FILE_SIZE < 2 ^ 48 ->
  9 * MAX_FILE_SIZE < 10 * file_size ->
  int_gt_float file_size (size_limit MAX_FILE_SIZE) = true.
Proof.
  intros [Hmax0 Hmax] Hsize. unfold size_limit, float_mul, float_of_int.
  rewrite (round53_exact MAX_FILE_SIZE 0) by lia. simpl fmant. simpl fexp.
  set (p := MAX_FILE_SIZE * 8106479329266893).
  assert (Hp : 10 * p = 9 * MAX_FILE_SIZE * 2 ^ 53 + 2 * MAX_FILE_SIZE) by lia.
  destruct (Z_lt_le_dec p (2 ^ 53)) as [Hsmall|Hbig].
  - rewrite round53_exact by lia. unfold int_gt_float. simpl.
    apply Z.ltb_lt. lia.
  - destruct (round53_upper p (0 + -53) Hbig) as (q & -> & Hexcess & Hpow & Hq).
    set (excess := Z.log2 p - 52) in *.
    assert (Hp101 : p < 2 ^ 101) by (subst p; nia).
    assert (HE : 2 ^ excess < 2 ^ 49) by lia.
    assert (Hexcess49 : excess < 49).
    { apply (Z.pow_lt_mono_r_iff 2); lia. }
    unfold int_gt_float. simpl fexp. simpl fmant.
    destruct (Z.leb_spec 0 (0 + -53 + excess)) as [Hpos|_]; [lia|].
    apply Z.ltb_lt.
    replace (- (0 + -53 + excess)) with (53 - excess) by lia.
    assert (HEF : 2 ^ (53 - excess) * 2 ^ excess = 2 ^ 53).
    { rewrite <- Z.pow_add_r by lia. f_equal. lia. }
    assert (0 < 2 ^ excess) by lia.
    apply (Z.mul_lt_mono_pos_r (2 ^ excess)); [lia|].
    rewrite <- Z.mul_assoc, HEF. lia.
Qed.
End SizeLimit.

(** ** Extraction of the files of a commit *)

Lemma str_find_startswith (sub s : pystr) (i : nat) :
  str_find sub s = Some i -> startswith sub (drop i s) = true.
Proof.
  revert i. induction s as [|c s IH]; intros i; cbn [str_find].
  - destruct (startswith sub []) eqn:Hstart; [|done]. by intros [= <-].
  - destruct (startswith sub (c :: s)) eqn:Hstart; [by intros [= <-]|].
    destruct (str_find sub s) as [j|]; [|done]. simpl.
    intros [= <-]. by apply IH.
Qed.

(** The document starts with the hunk marker that was found. *)
Lemma hunk_marker_starts_document (diff : pystr) (end_of_headers : nat) :
  str_find (LF :: lit "@@") diff = Some end_of_headers ->
  startswith (lit "@@") (drop (end_of_headers + 1) diff) = true.
Proof.
  intros Hfind. apply str_find_startswith in Hfind.
  rewrite Nat.add_1_r.
  destruct (drop end_of_headers diff) as [|d rest] eqn:Hdrop; [done|].
  assert (Hrest : drop (S end_of_headers) diff = rest).
  { rewrite <- (Nat.add_1_l end_of_headers), Nat.add_comm, <- drop_drop, Hdrop.
    done. }
  rewrite Hrest. simpl in Hfind. by apply andb_true_iff in Hfind as [_ Hfind].
Qed.

Lemma utf8_length_from_raise (whole : pystr) (pos : nat) (s : pystr) (e : exn) :
  utf8_length_from whole pos s = Raise e ->
  exists object start stop, e = UnicodeEncodeError object start stop.
Proof.
  revert pos. induction s as [|c rest IH]; intros pos; simpl; [done|].
  destruct (is_surrogate c); [intros [= <-]; eauto|].
  destruct (utf8_length_from whole (S pos) rest) eqn:Hrest; simpl; [done|].
  intros [= <-]. by apply (IH (S pos)).
Qed.

Lemma generated_eta {A} (g : generated A) : g = (g.1, g.2).
Proof. by destruct g. Qed.

Section CommitProperties.
Context {ExclusionRegexes : Type}.
Variable is_filepath_excluded : pystr -> ExclusionRegexes -> bool.
Variable MAX_FILE_SIZE : Z.

Local Abbreviation extract := (extract_commit_file is_filepath_excluded MAX_FILE_SIZE).
Local Abbreviation files_loop := (get_files_loop is_filepath_excluded MAX_FILE_SIZE).
Local Abbreviation files_of := (get_files is_filepath_excluded MAX_FILE_SIZE).

Implicit Types self : Commit ExclusionRegexes.

(** What holds of every unit that the loop body yields. *)
Lemma extract_commit_file_Some self name mode diff f :
  (0 <= MAX_FILE_SIZE < 2 ^ 48)%Z ->
  extract self name mode diff = Ok (Some f) ->
  exists size,
    utf8_length (document f) = Ok size
    /\ (10 * size <= 9 * MAX_FILE_SIZE)%Z
    /\ startswith (lit "@@") (document f) = true
    /\ filename f = name /\ filemode f = mode.
Proof.
  intros Hmax. unfold extract_commit_file.
  destruct (is_filepath_excluded _ _); [done|].
  destruct (str_find _ diff) as [i|] eqn:Hfind; [|done].
  destruct (utf8_length _) as [size|e] eqn:Hsize; [|done]. simpl.
  destruct (int_gt_float size _) eqn:Hgt; [done|].
  destruct (drop (i + 1) diff) as [|c document] eqn:Hdoc; [done|].
  intros [= <-]. simpl. exists size. split_and!; try done.
  - destruct (Z_le_gt_dec (10 * size) (9 * MAX_FILE_SIZE)) as [|Hover]; [done|].
    rewrite (size_limit_exceeded MAX_FILE_SIZE size) in Hgt by lia. done.
  - apply hunk_marker_starts_document in Hfind. by rewrite Hdoc in Hfind.
Qed.

Lemma get_files_loop_yields self names diffs f :
  f ∈ (files_loop self names diffs).1 ->
  exists name mode diff, extract self name mode diff = Ok (Some f).
Proof.
  revert diffs. induction names as [|[[name mode]|e] names IH]; intros diffs;
    cbn [get_files_loop]; [by intros ?%elem_of_nil| |by intros ?%elem_of_nil].
  destruct diffs as [|diff diffs]; [by intros ?%elem_of_nil|].
  destruct (extract self name mode diff) as [found|e] eqn:Hextract;
    [|by intros ?%elem_of_nil].
  rewrite (generated_eta (files_loop self names diffs)). simpl.
  intros [Hin|Hin]%elem_of_app.
  - destruct found as [f'|]; simpl in Hin; [|by apply elem_of_nil in Hin].
    apply list_elem_of_singleton in Hin as ->. eauto.
  - by apply (IH diffs).
Qed.

(** C6: no unit is emitted for a file whose extracted document is
    longer, in UTF-8 bytes, than 90% of MAX_FILE_SIZE, whose diff has
    no hunk marker after a newline, or whose document is empty (which
    cannot happen, as the document starts with the marker); every unit
    that a commit yields starts at a hunk marker and is within the
    limit. *)
Theorem oversized_documents_not_emitted self name mode diff :
  (0 <= MAX_FILE_SIZE < 2 ^ 48)%Z ->
  (forall end_of_headers file_size,
     str_find (LF :: lit "@@") diff = Some end_of_headers ->
     utf8_length (drop (end_of_headers + 1) diff) = Ok file_size ->
     (9 * MAX_FILE_SIZE < 10 * file_size)%Z ->
     extract self name mode diff = Ok None)
  /\ (str_find (LF :: lit "@@") diff = None ->
      extract self name mode diff = Ok None)
  /\ (forall end_of_headers,
        str_find (LF :: lit "@@") diff = Some end_of_headers ->
        drop (end_of_headers + 1) diff = [] ->
        extract self name mode diff = Ok None)
  /\ (forall end_of_headers,
        str_find (LF :: lit "@@") diff = Some end_of_headers ->
        startswith (lit "@@") (drop (end_of_headers + 1) diff) = true)
  /\ (forall f, f ∈ (files_of self).1 ->
        exists size,
          utf8_length (document f) = Ok size
          /\ (10 * size <= 9 * MAX_FILE_SIZE)%Z
          /\ startswith (lit "@@") (document f) = true).
Proof.
  intros Hmax. split_and!; [| | |by apply hunk_marker_starts_document|].
  - intros i size Hfind Hsize Hover. unfold extract_commit_file.
    destruct (is_filepath_excluded _ _); [done|].
    rewrite Hfind, Hsize. simpl.
    by rewrite (size_limit_exceeded MAX_FILE_SIZE size) by lia.
  - intros Hfind. unfold extract_commit_file.
    destruct (is_filepath_excluded _ _); [done|]. by rewrite Hfind.
  - intros i Hfind Hempty. unfold extract_commit_file.
    destruct (is_filepath_excluded _ _); [done|].
    rewrite Hfind, Hempty. simpl. by destruct (int_gt_float _ _).
  - intros f Hin. unfold get_files in Hin.
    destruct (split_once _ _) as [|header [|rest [|]]];
      try (by apply elem_of_nil in Hin).
    rewrite (generated_eta (files_loop self _ _)) in Hin. simpl in Hin.
    apply get_files_loop_yields in Hin as (name' & mode' & diff' & Hextract).
    destruct (extract_commit_file_Some _ _ _ _ _ Hmax Hextract)
      as (size & ? & ? & ? & _).
    by exists size.
Qed.
(** The loop stops at the first header record that fails to parse: it
    ends with an exception and yields what the records before it give. *)
Lemma get_files_loop_raise self names diffs k cause :
  names !! k = Some (Raise cause) ->
  (forall j earlier, j < k -> names !! j = Some earlier ->
     exists name_and_mode, earlier = Ok name_and_mode) ->
  k <= length diffs ->
  (exists cause',
     (files_loop self names diffs).2 = Some cause'
     /\ (cause' = cause \/ exists object start stop,
                             cause' = UnicodeEncodeError object start stop))
  /\ (files_loop self names diffs).1 = (files_loop self (take k names) diffs).1.
Proof.
  revert k diffs. induction names as [|[[name mode]|e] names IH];
    intros k diffs Hk Hearlier Hdiffs; [done| |].
  - destruct k as [|k]; [done|]. simpl in Hk.
    destruct diffs as [|diff diffs]; [simpl in Hdiffs; lia|].
    cbn [get_files_loop take]. unfold extract_commit_file.
    destruct (is_filepath_excluded _ _).
    { destruct (IH k diffs Hk) as ((cause' & Hfin & Hcause) & Hyield).
      - intros j earlier Hj. apply (Hearlier (S j)). lia.
      - simpl in Hdiffs. lia.
      - rewrite (generated_eta (files_loop self names diffs)),
          (generated_eta (files_loop self (take k names) diffs)). simpl.
        split; [by exists cause'|]. by rewrite Hyield. }
    destruct (str_find _ diff) as [i|].
    2:{ destruct (IH k diffs Hk) as ((cause' & Hfin & Hcause) & Hyield).
      - intros j earlier Hj. apply (Hearlier (S j)). lia.
      - simpl in Hdiffs. lia.
      - rewrite (generated_eta (files_loop self names diffs)),
          (generated_eta (files_loop self (take k names) diffs)). simpl.
        split; [by exists cause'|]. by rewrite Hyield. }
    destruct (utf8_length _) as [size|e] eqn:Hsize; simpl.
    2:{ split; [|done]. exists e. split; [done|]. right.
        by apply (utf8_length_from_raise _ _ _ _ Hsize). }
    destruct (IH k diffs Hk) as ((cause' & Hfin & Hcause) & Hyield).
    + intros j earlier Hj. apply (Hearlier (S j)). lia.
    + simpl in Hdiffs. lia.
    + rewrite (generated_eta (files_loop self names diffs)),
        (generated_eta (files_loop self (take k names) diffs)).
      destruct (int_gt_float _ _); [|destruct (drop (i + 1) diff)]; simpl;
        (split; [by exists cause' | by rewrite Hyield]).
  - destruct k as [|k].
    + simpl in Hk. injection Hk as ->. simpl. split; [|done].
      exists cause. by split; [|left].
    + destruct (Hearlier 0 (Raise e)) as [? ?]; [lia|done|done].
Qed.

(** Every exception of [get_files] is a [PatchParseError] that names the
    commit. *)
Lemma get_files_wrapped self yielded e :
  files_of self = (yielded, Some e) ->
  exists cause,
    e = PatchParseError (lit "Could not parse patch (sha: " ++ str_of_sha (sha self)
                           ++ lit "): " ++ str_exn cause).
Proof.
  unfold get_files. destruct (split_once _ _) as [|header [|rest [|]]]; try done.
  rewrite (generated_eta (files_loop self _ _)).
  destruct (files_loop self _ _).2 as [cause|]; simpl; [|done].
  intros [= _ <-]. by exists cause.
Qed.

(** C4: a header record whose status holds none of M, C, A, T, R, D
    makes the parser raise an error that quotes the status; inside
    [get_files] this, like any other exception, comes out as one
    [PatchParseError] naming the commit, after which nothing is
    yielded: the units yielded are those of the records before the
    failing one, and [Commit.files] keeps none. *)
Theorem unknown_status_parse_failure self header rest k record prefix name more :
  split_once (NUL :: lit "diff ") (patch self) = [header; rest] ->
  List.tl (header_separator_split header) !! k = Some record ->
  split_char NUL (rstrip [NUL] (COLON :: record)) = prefix :: name :: more ->
  (forall letter,
     letter ∈ [letter_M; letter_C; letter_A; letter_T; letter_R; letter_D] ->
     letter ∉ status_of_prefix prefix) ->
  (forall j earlier, j < k ->
     List.tl (header_separator_split header) !! j = Some earlier ->
     exists name_and_mode,
       _parse_patch_header_line (COLON :: earlier) = Ok name_and_mode) ->
  k <= length (diff_marker_split rest) ->
  _parse_patch_header_line (COLON :: record)
    = Raise (ValueError (lit "Can't parse header line " ++ COLON :: record
                           ++ lit ": unknown status " ++ status_of_prefix prefix))
  /\ (exists cause,
        (files_of self).2
          = Some (PatchParseError
                    (lit "Could not parse patch (sha: " ++ str_of_sha (sha self)
                       ++ lit "): " ++ str_exn cause))
        /\ Commit_files is_filepath_excluded MAX_FILE_SIZE self
           = Raise (PatchParseError
                      (lit "Could not parse patch (sha: " ++ str_of_sha (sha self)
                         ++ lit "): " ++ str_exn cause))
        /\ (cause = ValueError (lit "Can't parse header line " ++ COLON :: record
                                  ++ lit ": unknown status " ++ status_of_prefix prefix)
            \/ exists object start stop,
                 cause = UnicodeEncodeError object start stop))
  /\ (files_of self).1
     = (files_loop self (take k (_parse_patch_header header))
          (diff_marker_split rest)).1
  /\ (forall other yielded e,
        files_of other = (yielded, Some e) ->
        exists cause,
          e = PatchParseError
                (lit "Could not parse patch (sha: " ++ str_of_sha (sha other)
                   ++ lit "): " ++ str_exn cause)).
Proof.
  intros Hsplit Hrecord Hfields Hletters Hearlier Hdiffs.
  assert (Hparse : _parse_patch_header_line (COLON :: record)
            = Raise (ValueError (lit "Can't parse header line " ++ COLON :: record
                       ++ lit ": unknown status " ++ status_of_prefix prefix))).
  { rewrite (parse_patch_header_line_fields _ _ _ _ Hfields).
    unfold spec_resolve_status, spec_status_precedence. simpl.
    rewrite !(proj2 (char_in_false _ _)); [done|..];
      apply Hletters; repeat constructor. }
  split; [exact Hparse|].
  assert (Hfailing : _parse_patch_header header !! k
            = Some (Raise (ValueError (lit "Can't parse header line " ++ COLON :: record
                       ++ lit ": unknown status " ++ status_of_prefix prefix)))).
  { unfold _parse_patch_header. rewrite list_lookup_fmap, Hrecord. simpl.
    by rewrite Hparse. }
  destruct (get_files_loop_raise self (_parse_patch_header header)
              (diff_marker_split rest) k _ Hfailing)
    as ((cause & Hfin & Hcause) & Hyield); [|done|].
  { intros j earlier Hj. unfold _parse_patch_header.
    rewrite list_lookup_fmap.
    destruct (List.tl (header_separator_split header) !! j) as [line|] eqn:Hline;
      [|done].
    simpl. intros [= <-]. by apply (Hearlier j line). }
  assert (Hget : files_of self =
            ((files_loop self (_parse_patch_header header) (diff_marker_split rest)).1,
             Some (wrap_parse_error self cause))).
  { unfold get_files. rewrite Hsplit.
    rewrite (generated_eta (files_loop self _ _)). by rewrite Hfin. }
  split_and!.
  - exists cause. unfold Commit_files. rewrite Hget. simpl. by split_and!.
  - by rewrite Hget.
  - intros other yielded e. apply get_files_wrapped.
Qed.
End CommitProperties.

Example sample_get_files_added :
  sample_get_files 1048576 (lit "A") =
    ([ CommitFile (lit "@@ -1 +1 @@" ++ LF :: lit "-key = 1" ++ LF :: lit "+key = 2" ++ [LF])
         (lit "a.py") MODIFY;
       CommitFile (lit "@@ -0,0 +1 @@" ++ LF :: lit "+token = 3" ++ [LF])
         (lit "b.py") NEW ],
     None).
Proof. vm_compute. reflexivity. Qed.

Example sample_get_files_unknown_status :
  sample_get_files 1048576 (lit "X") =
    ([ CommitFile (lit "@@ -1 +1 @@" ++ LF :: lit "-key = 1" ++ LF :: lit "+key = 2" ++ [LF])
         (lit "a.py") MODIFY ],
     Some (PatchParseError
             (lit "Could not parse patch (sha: 9e0d0c1f): Can't parse header line "
                ++ lit ":000000 100644 0000000 1234567 X" ++ NUL :: lit "b.py" ++ NUL
                :: lit ": unknown status X"))).
Proof. vm_compute. reflexivity. Qed.

Example sample_get_files_small_limit :
  sample_get_files 30 (lit "A") =
    ([ CommitFile (lit "@@ -0,0 +1 @@" ++ LF :: lit "+token = 3" ++ [LF])
         (lit "b.py") NEW ],
     None).
Proof. vm_compute. reflexivity. Qed.

(** A document of 30 bytes against a maximum size of 30. *)
Lemma oversized_documents_not_emitted_witness :
  extract_commit_file (fun _ _ => false) 30 (sample_commit (lit "A"))
    (lit "a.py") MODIFY sample_diff = Ok None.
Proof.
  eapply (proj1 (oversized_documents_not_emitted (fun _ _ => false) 30
                   (sample_commit (lit "A")) (lit "a.py") MODIFY sample_diff
                   ltac:(lia))).
  - vm_compute. reflexivity.
  - vm_compute. reflexivity.
  - lia.
Defined.

(** The second header record of the sample commit has status X. *)
Lemma unknown_status_parse_failure_witness :
  exists cause,
    (sample_get_files 1048576 (lit "X")).2
    = Some (PatchParseError
              (lit "Could not parse patch (sha: 9e0d0c1f): " ++ str_exn cause)).
Proof.
  pose proof (fun header rest record prefix name more H1 H2 H3 H4 H5 H6 =>
                proj1 (proj2 (unknown_status_parse_failure (fun _ _ => false) 1048576
                                (sample_commit (lit "X")) header rest 1 record
                                prefix name more H1 H2 H3 H4 H5 H6))) as Hfail.
  edestruct Hfail as (cause & Hfin & _).
  - vm_compute. reflexivity.
  - vm_compute. reflexivity.
  - vm_compute. reflexivity.
  - intros letter Hin. apply char_in_false.
    repeat (apply elem_of_cons in Hin as [->|Hin]; [reflexivity|]).
    by apply elem_of_nil in Hin.
  - intros [|j] earlier Hj Hearlier; [|lia].
    vm_compute in Hearlier. injection Hearlier as <-.
    eexists. vm_compute. reflexivity.
  - vm_compute. repeat constructor.
  - exists cause. exact Hfin.
Defined.

(** * Further properties *)

(** ** Fields of a header line *)

Lemma split_char_nonempty (sep : N) (s : pystr) : split_char sep s <> [].
Proof.
  destruct s as [|c s]; simpl; [done|].
  destruct (N.eqb c sep); [done|]. by destruct (split_char sep s).
Qed.

Lemma split_char_absent (sep : N) (s : pystr) :
  sep ∉ s -> split_char sep s = [s].
Proof.
  induction s as [|c s IH]; intros Hnot; [done|].
  apply not_elem_of_cons in Hnot as [Hne Hnot]. simpl.
  destruct (N.eqb_spec c sep) as [->|_]; [done|]. by rewrite (IH Hnot).
Qed.

Lemma split_char_app (sep : N) (a b : pystr) :
  sep ∉ a -> split_char sep (a ++ sep :: b) = a :: split_char sep b.
Proof.
  induction a as [|c a IH]; intros Hnot; simpl.
  - by rewrite N.eqb_refl.
  - apply not_elem_of_cons in Hnot as [Hne Hnot].
    destruct (N.eqb_spec c sep) as [->|_]; [done|]. by rewrite (IH Hnot).
Qed.

(** Splitting undoes joining when no field holds the separator. *)
Lemma split_char_join (sep : N) (field : pystr) (fields : list pystr) :
  Forall (fun f => sep ∉ f) (field :: fields) ->
  split_char sep (join [sep] (field :: fields)) = field :: fields.
Proof.
  revert field. induction fields as [|next fields IH]; intros field Hall.
  - simpl. apply split_char_absent. by inversion Hall.
  - inversion Hall as [|? ? Hfield Hrest]; subst.
    change (join [sep] (field :: next :: fields))
      with (field ++ sep :: join [sep] (next :: fields)).
    rewrite split_char_app by done. by rewrite IH.
Qed.

Lemma last_join_nonempty (sep : N) (field : pystr) (fields : list pystr) (c : N) :
  (exists f, last (field :: fields) = Some f /\ last f = Some c) ->
  last (join [sep] (field :: fields)) = Some c.
Proof.
  revert field. induction fields as [|next fields IH]; intros field (f & Hf & Hc).
  - simpl in *. by injection Hf as ->.
  - change (join [sep] (field :: next :: fields))
      with (field ++ sep :: join [sep] (next :: fields)).
    rewrite last_app, last_cons. rewrite (IH next); [done|].
    exists f. split; [|done]. by rewrite last_cons_cons in Hf.
Qed.

(** X1: a record made of NUL-free fields, the last of them not empty,
    joined by NUL and followed by any number of NULs, is read back
    field by field: the name reported is the third field when there is
    one, else the second, and the filemode is that of the status of the
    first. *)
Theorem parse_patch_header_line_fields_joined
    (prefix name : pystr) (more : list pystr) (trailing : nat) :
  Forall (fun f => NUL ∉ f) (prefix :: name :: more) ->
  (exists f c, last (prefix :: name :: more) = Some f /\ last f = Some c) ->
  _parse_patch_header_line
    (join [NUL] (prefix :: name :: more) ++ replicate trailing NUL)
  = match spec_resolve_status (status_of_prefix prefix) with
    | Some mode => Ok (reported_name name more, mode)
    | None =>
        Raise (ValueError
                 (lit "Can't parse header line "
                    ++ (join [NUL] (prefix :: name :: more) ++ replicate trailing NUL)
                    ++ lit ": unknown status " ++ status_of_prefix prefix))
    end.
Proof.
  intros Hfields (f & c & Hf & Hc).
  apply parse_patch_header_line_fields.
  rewrite rstrip_suffix.
  - by apply split_char_join.
  - apply Forall_forall. intros x ->%elem_of_replicate_inv. reflexivity.
  - intros c' Hlast.
    rewrite (last_join_nonempty NUL prefix (name :: more) c) in Hlast by eauto.
    injection Hlast as <-.
    assert (Hnot : NUL ∉ f).
    { rewrite Forall_forall in Hfields. apply Hfields.
      by apply last_Some_elem_of. }
    simpl. destruct (N.eqb_spec c NUL) as [->|]; [|done].
    exfalso. apply Hnot. by apply last_Some_elem_of.
Qed.

(** A copy with its similarity score: the new name is reported. *)
Lemma parse_patch_header_line_fields_joined_witness :
  _parse_patch_header_line
    (lit ":100644 100644 bcd1234 bcd1234 C68" ++ NUL :: lit "old.py"
       ++ NUL :: lit "new.py" ++ [NUL])
  = Ok (lit "new.py", NEW).
Proof.
  apply (parse_patch_header_line_fields_joined
           (lit ":100644 100644 bcd1234 bcd1234 C68") (lit "old.py") [lit "new.py"] 1).
  - repeat constructor; apply char_in_false; reflexivity.
  - exists (lit "new.py"), 121%N. split; reflexivity.
Defined.

(** X2: a line that holds no NUL before its trailing NULs has no name
    field: parsing raises the unpacking error, whatever the status. *)
Theorem parse_patch_header_line_without_name (body : pystr) (trailing : nat) :
  NUL ∉ body ->
  _parse_patch_header_line (body ++ replicate trailing NUL)
  = Raise (ValueError
             (lit "not enough values to unpack (expected at least 2, got 1)")).
Proof.
  intros Hnot. unfold _parse_patch_header_line.
  assert (Hstrip : NUL ∉ rstrip [NUL] (body ++ replicate trailing NUL)).
  { destruct (decide (body = [])) as [->|Hne].
    - simpl. rewrite rstrip_all; [apply not_elem_of_nil|].
      apply Forall_forall. intros x ->%elem_of_replicate_inv. reflexivity.
    - destruct (last body) as [c|] eqn:Hlast;
        [|by apply last_None in Hlast].
      rewrite rstrip_suffix; [done| |].
      + apply Forall_forall. intros x ->%elem_of_replicate_inv. reflexivity.
      + intros c' Hc'. assert (c' = c) as -> by congruence. simpl.
        destruct (N.eqb_spec c NUL) as [->|]; [|done].
        exfalso. apply Hnot. by apply last_Some_elem_of. }
  by rewrite (split_char_absent _ _ Hstrip).
Qed.

Lemma parse_patch_header_line_without_name_witness :
  _parse_patch_header_line (lit ":100644 100644 bcd1234 0123456 M" ++ [NUL; NUL])
  = Raise (ValueError
             (lit "not enough values to unpack (expected at least 2, got 1)")).
Proof.
  apply (parse_patch_header_line_without_name
           (lit ":100644 100644 bcd1234 0123456 M") 2).
  apply char_in_false. reflexivity.
Defined.

(** ** Records of a raw header *)

Lemma header_separator_split_nonempty (s : pystr) : header_separator_split s <> [].
Proof.
  destruct s as [|c s]; simpl; [done|].
  destruct (header_separator_split s); [done|]. by case_match.
Qed.

Lemma header_separator_split_piece (piece rest f : pystr) (fs : list pystr) :
  has_header_separator piece = false ->
  head rest <> Some COLON ->
  header_separator_split rest = f :: fs ->
  header_separator_split (piece ++ rest) = (piece ++ f) :: fs.
Proof.
  intros Hpiece Hrest Hsplit. induction piece as [|c piece IH]; [done|].
  cbn [app header_separator_split].
  destruct piece as [|d piece].
  - cbn [app]. rewrite Hsplit.
    destruct rest as [|d rest]; [done|].
    destruct (N.eqb_spec d COLON) as [->|_]; [done|].
    by rewrite andb_false_r.
  - cbn [has_header_separator] in Hpiece.
    apply orb_false_iff in Hpiece as [Hcut Hpiece].
    rewrite (IH Hpiece). cbn [app]. by rewrite Hcut.
Qed.

Lemma header_separator_split_record (c : N) (rest f : pystr) (fs : list pystr) :
  c = LF \/ c = NUL ->
  header_separator_split rest = f :: fs ->
  header_separator_split (c :: COLON :: rest) = [] :: f :: fs.
Proof.
  intros Hc Hsplit.
  change (header_separator_split (c :: COLON :: rest)) with
    (match header_separator_split (COLON :: rest) with
     | f :: fs =>
         if (N.eqb c LF || N.eqb c NUL) && N.eqb COLON COLON
         then [] :: List.tl f :: fs else (c :: f) :: fs
     | [] => [[c]]
     end).
  assert (Hcolon : header_separator_split (COLON :: rest) = (COLON :: f) :: fs).
  { cbn [header_separator_split]. rewrite Hsplit. by destruct rest. }
  rewrite Hcolon. by destruct Hc as [-> | ->].
Qed.

Lemma header_separator_split_raw (info : pystr) (records : list (N * pystr)) :
  has_header_separator info = false ->
  Forall (fun r => (r.1 = LF \/ r.1 = NUL) /\ has_header_separator r.2 = false)
         records ->
  header_separator_split (raw_header info records) = info :: records.*2.
Proof.
  intros Hinfo Hrecords. revert info Hinfo.
  induction Hrecords as [|[c record] records [Hc Hrecord] _ IH]; intros info Hinfo;
    unfold raw_header.
  - simpl. rewrite (header_separator_split_piece info [] [] []); try done.
    by rewrite app_nil_r.
  - simpl in Hc, Hrecord. csimpl.
    specialize (IH record Hrecord). unfold raw_header in IH.
    rewrite (header_separator_split_piece info _ [] (record :: records.*2)).
    + by rewrite app_nil_r.
    + done.
    + simpl. by destruct Hc as [-> | ->].
    + by apply header_separator_split_record.
Qed.

(** X3: a header made of the commit information and of file records,
    each introduced by a newline or a NUL and a colon, none of them
    holding that pattern itself, is parsed into one item per record, in
    the order of the records; the commit information is skipped. *)
Theorem parse_patch_header_records (info : pystr) (records : list (N * pystr)) :
  has_header_separator info = false ->
  Forall (fun r => (r.1 = LF \/ r.1 = NUL) /\ has_header_separator r.2 = false)
         records ->
  _parse_patch_header (raw_header info records)
  = (fun r => _parse_patch_header_line (COLON :: r.2)) <$> records.
Proof.
  intros Hinfo Hrecords. unfold _parse_patch_header.
  rewrite header_separator_split_raw by done. simpl.
  by rewrite <- list_fmap_compose.
Qed.

Lemma parse_patch_header_records_witness :
  _parse_patch_header
    (raw_header (lit "commit 9e0d0c1f" ++ LF :: lit "    Update: settings" ++ [LF])
       [ (LF, lit "100644 100644 bcd1234 0123456 M" ++ NUL :: lit "a.py" ++ [NUL]);
         (NUL, lit "100644 000000 1234567 0000000 D" ++ NUL :: lit "b.py" ++ [NUL]) ])
  = [ Ok (lit "a.py", MODIFY); Ok (lit "b.py", DELETE) ].
Proof.
  rewrite parse_patch_header_records.
  - vm_compute. reflexivity.
  - reflexivity.
  - constructor; [split; [by left | reflexivity]|].
    constructor; [split; [by right | reflexivity]|]. constructor.
Defined.

(** ** Body chunks *)

Lemma diff_marker_split_from_nonempty (b : bool) (k : nat) (s : pystr) :
  diff_marker_split_from b k s <> [].
Proof.
  revert b k. induction s as [|c s IH]; intros b k; [done|].
  cbn [diff_marker_split_from]. destruct k as [|k]; [|apply IH].
  destruct (b && _); [done|].
  by destruct (diff_marker_split_from (N.eqb c LF) 0 s).
Qed.

Lemma diff_marker_split_from_skip (b : bool) (marker s : pystr) :
  marker <> [] ->
  diff_marker_split_from b (length marker) (marker ++ s)
  = diff_marker_split_from false 0 s.
Proof.
  revert b. induction marker as [|c marker IH]; intros b Hne; [done|].
  cbn [length app diff_marker_split_from].
  destruct marker as [|d marker]; [done|]. by apply IH.
Qed.

Lemma startswith_app (p s : pystr) :
  startswith p s = true -> exists rest, s = p ++ rest.
Proof.
  revert s. induction p as [|a p IH]; intros s; [by exists s|].
  destruct s as [|b s]; [done|]. simpl.
  intros [Hab Hrest]%andb_true_iff. apply N.eqb_eq in Hab as ->.
  destruct (IH s Hrest) as [rest ->]. by exists rest.
Qed.

Lemma join_cons_head (sep : pystr) (c : N) (f : pystr) (fs : list pystr) :
  join sep ((c :: f) :: fs) = c :: join sep (f :: fs).
Proof. by destruct fs. Qed.

Lemma diff_marker_split_from_join (n : nat) (b : bool) (s : pystr) :
  length s <= n -> join (lit "diff ") (diff_marker_split_from b 0 s) = s.
Proof.
  revert b s. induction n as [|n IH]; intros b s Hlen.
  - destruct s; [done | simpl in Hlen; lia].
  - destruct s as [|c s]; [done|]. cbn [diff_marker_split_from].
    destruct (b && startswith (lit "diff ") (c :: s)) eqn:Hmatch.
    + apply andb_true_iff in Hmatch as [_ Hstart].
      apply startswith_app in Hstart as [rest Hrest].
      change (lit "diff ") with [100; 105; 102; 102; 32]%N in Hrest.
      injection Hrest as -> ->.
      rewrite (diff_marker_split_from_skip false [105; 102; 102; 32]%N rest
                 ltac:(done)
               : diff_marker_split_from false 4 (105 :: 102 :: 102 :: 32 :: rest)%N = _).
      pose proof (diff_marker_split_from_nonempty false 0 rest) as Hne.
      destruct (diff_marker_split_from false 0 rest) as [|f fs] eqn:Hsplit; [done|].
      change (join (lit "diff ") ([] :: f :: fs))
        with (lit "diff " ++ join (lit "diff ") (f :: fs)).
      rewrite <- Hsplit, IH; [done|]. simpl in Hlen. lia.
    + pose proof (diff_marker_split_from_nonempty (N.eqb c LF) 0 s) as Hne.
      destruct (diff_marker_split_from (N.eqb c LF) 0 s) as [|f fs] eqn:Hsplit;
        [done|].
      rewrite join_cons_head, <- Hsplit, IH; [done|]. simpl in Hlen. lia.
Qed.

(** X4: the body chunks are the whole body: joined again with the
    marker ["diff "] they give back the text that was split, so no
    character of any diff is lost or moved. *)
Theorem diff_marker_split_join (rest : pystr) :
  join (lit "diff ") (diff_marker_split rest) = rest.
Proof. apply (diff_marker_split_from_join (length rest)). lia. Qed.

(** ** Finding a substring *)

Lemma str_find_first (sub s : pystr) (i j : nat) :
  str_find sub s = Some i -> j < i -> startswith sub (drop j s) = false.
Proof.
  revert i j. induction s as [|c s IH]; intros i j; cbn [str_find].
  - destruct (startswith sub []); [|done]. intros [= <-]. lia.
  - destruct (startswith sub (c :: s)) eqn:Hstart; [intros [= <-]; lia|].
    destruct (str_find sub s) as [i'|] eqn:Hfind; [|done]. simpl.
    intros [= <-] Hj. destruct j as [|j]; [done|]. simpl. apply (IH i'); [done|lia].
Qed.

Lemma str_find_None (sub s : pystr) (j : nat) :
  str_find sub s = None -> startswith sub (drop j s) = false.
Proof.
  revert j. induction s as [|c s IH]; intros j; cbn [str_find].
  - destruct (startswith sub []) eqn:Hstart; [done|]. intros _.
    by rewrite drop_nil.
  - destruct (startswith sub (c :: s)) eqn:Hstart; [done|].
    destruct (str_find sub s) eqn:Hfind; [done|]. intros _.
    destruct j as [|j]; [done|]. simpl. by apply IH.
Qed.

(** [s.find(sub)] is the first place where [sub] occurs. *)
Lemma str_find_at (sub s : pystr) (i : nat) :
  i <= length s ->
  startswith sub (drop i s) = true ->
  (forall j, j < i -> startswith sub (drop j s) = false) ->
  str_find sub s = Some i.
Proof.
  intros Hlen Hat Hbefore.
  destruct (str_find sub s) as [k|] eqn:Hfind.
  - f_equal. destruct (Nat.lt_trichotomy k i) as [Hlt|[->|Hgt]]; [|done|].
    + apply str_find_startswith in Hfind. by rewrite (Hbefore k Hlt) in Hfind.
    + by rewrite (str_find_first _ _ _ _ Hfind Hgt) in Hat.
  - by rewrite (str_find_None _ _ i Hfind) in Hat.
Qed.

(** ** The exact size test *)

Section SizeLimitExact.
Local Open Scope Z_scope.

Lemma round53_lower (m e : Z) :
  2 ^ 53 <= m ->
  m < (fmant (round53 m e) + 1) * 2 ^ (Z.log2 m - 52).
Proof.
  intros Hm. unfold round53. rewrite Z.abs_eq by lia.
  assert (Hlog : 53 <= Z.log2 m) by (apply Z.log2_le_pow2; lia).
  set (excess := Z.log2 m - 52) in *.
  destruct (Z.leb_spec excess 0) as [Hle|Hgt]; [lia|].
  rewrite Z.sgn_pos by lia. cbn [fmant].
  assert (Hpos : 0 < 2 ^ excess) by lia.
  pose proof (Z.mul_succ_div_gt m (2 ^ excess) Hpos) as Hdiv.
  rewrite Z.shiftr_div_pow2 by lia.
  destruct (_ || _); nia.
Qed.

Lemma size_limit_not_exceeded (MAX_FILE_SIZE file_size : Z) :
  0 <= MAX_FILE_SIZE < 2 ^ 48 ->
  10 * file_size <= 9 * MAX_FILE_SIZE ->
  int_gt_float file_size (size_limit MAX_FILE_SIZE) = false.
Proof.
  intros [Hmax0 Hmax] Hsize. unfold size_limit, float_mul, float_of_int.
  rewrite (round53_exact MAX_FILE_SIZE 0) by lia. simpl fmant. simpl fexp.
  set (p := MAX_FILE_SIZE * 8106479329266893).
  assert (Hp : 10 * p = 9 * MAX_FILE_SIZE * 2 ^ 53 + 2 * MAX_FILE_SIZE) by lia.
  destruct (Z_lt_le_dec p (2 ^ 53)) as [Hsmall|Hbig].
  - rewrite round53_exact by lia. unfold int_gt_float. simpl.
    apply Z.ltb_ge. lia.
  - pose proof (round53_lower p (0 + -53) Hbig) as Hlower.
    destruct (round53_upper p (0 + -53) Hbig) as (q & Hround & Hexcess & Hpow & Hq).
    rewrite Hround in *. cbn [fmant] in Hlower.
    set (excess := Z.log2 p - 52) in *.
    assert (Hp101 : p < 2 ^ 101) by (subst p; nia).
    assert (HE : 2 ^ excess < 2 ^ 49) by lia.
    assert (Hexcess49 : excess < 49).
    { apply (Z.pow_lt_mono_r_iff 2); lia. }
    unfold int_gt_float. simpl fexp. simpl fmant.
    destruct (Z.leb_spec 0 (0 + -53 + excess)) as [Hpos|_]; [lia|].
    apply Z.ltb_ge.
    replace (- (0 + -53 + excess)) with (53 - excess) by lia.
    assert (HEF : 2 ^ (53 - excess) * 2 ^ excess = 2 ^ 53).
    { rewrite <- Z.pow_add_r by lia. f_equal. lia. }
    assert (0 < 2 ^ excess) by lia.
    assert (Hscaled : file_size * 2 ^ (53 - excess) * 2 ^ excess
                      < (q + 1) * 2 ^ excess).
    { rewrite <- Z.mul_assoc, HEF. lia. }
    apply Z.mul_lt_mono_pos_r in Hscaled; lia.
Qed.
End SizeLimitExact.

Section ExtractionProperties.
Context {ExclusionRegexes : Type}.
Variable is_filepath_excluded : pystr -> ExclusionRegexes -> bool.
Variable MAX_FILE_SIZE : Z.

Local Abbreviation extract := (extract_commit_file is_filepath_excluded MAX_FILE_SIZE).
Local Abbreviation files_loop := (get_files_loop is_filepath_excluded MAX_FILE_SIZE).
Local Abbreviation files_of := (get_files is_filepath_excluded MAX_FILE_SIZE).

Implicit Types self : Commit ExclusionRegexes.

Lemma extract_commit_file_exact self name mode headers document size :
  (0 <= MAX_FILE_SIZE < 2 ^ 48)%Z ->
  is_filepath_excluded name (exclusion_regexes self) = false ->
  startswith (lit "@@") document = true ->
  (forall j, j < length headers ->
     startswith (LF :: lit "@@") (drop j (headers ++ LF :: document)) = false) ->
  utf8_length document = Ok size ->
  extract self name mode (headers ++ LF :: document)
  = if decide (10 * size <= 9 * MAX_FILE_SIZE)%Z
    then Ok (Some (CommitFile document name mode))
    else Ok None.
Proof.
  intros Hmax Hexcluded Hmarker Hfirst Hsize. unfold extract_commit_file.
  rewrite Hexcluded.
  rewrite (str_find_at _ _ (length headers)).
  - rewrite Nat.add_1_r.
    change (LF :: document) with ([LF] ++ document). rewrite app_assoc.
    rewrite drop_app_length'; [|rewrite length_app; simpl; lia].
    rewrite Hsize. simpl. case_decide as Hfits.
    + rewrite size_limit_not_exceeded by lia.
      destruct document; [done|reflexivity].
    + by rewrite size_limit_exceeded by lia.
  - rewrite length_app. lia.
  - rewrite drop_app_length. cbn [startswith]. by rewrite N.eqb_refl.
  - exact Hfirst.
Qed.

(** X5: for a file that is not excluded, the document is the text of
    the diff from its first hunk marker on, the extended headers before
    it being dropped, and the unit is emitted exactly when the UTF-8
    length of the document is at most 90% of MAX_FILE_SIZE. *)
Theorem extract_commit_file_first_hunk self name mode headers document size :
  (0 <= MAX_FILE_SIZE < 2 ^ 48)%Z ->
  is_filepath_excluded name (exclusion_regexes self) = false ->
  startswith (lit "@@") document = true ->
  (forall j, j < length headers ->
     startswith (LF :: lit "@@") (drop j (headers ++ LF :: document)) = false) ->
  utf8_length document = Ok size ->
  extract self name mode (headers ++ LF :: document)
  = if decide (10 * size <= 9 * MAX_FILE_SIZE)%Z
    then Ok (Some (CommitFile document name mode))
    else Ok None.
Proof. apply extract_commit_file_exact. Qed.

Lemma extract_commit_file_origin self name mode diff f :
  extract self name mode diff = Ok (Some f) ->
  is_filepath_excluded name (exclusion_regexes self) = false
  /\ filename f = name /\ filemode f = mode.
Proof.
  unfold extract_commit_file.
  destruct (is_filepath_excluded _ _); [done|].
  destruct (str_find _ diff) as [i|]; [|done].
  destruct (utf8_length _) as [size|e]; [|done]. simpl.
  destruct (int_gt_float size _); [done|].
  destruct (drop (i + 1) diff) as [|c document]; [done|].
  by intros [= <-].
Qed.

Lemma get_files_loop_origin self names diffs :
  Forall (fun f => is_filepath_excluded (filename f) (exclusion_regexes self) = false)
         (files_loop self names diffs).1
  /\ ((fun f => Ok (filename f, filemode f)) <$> (files_loop self names diffs).1)
       `sublist_of` names
  /\ length (files_loop self names diffs).1 <= length diffs.
Proof.
  revert diffs. induction names as [|[[name mode]|e] names IH]; intros diffs;
    cbn [get_files_loop].
  - split_and!; [constructor | constructor | simpl; lia].
  - destruct diffs as [|diff diffs];
      [split_and!; [constructor | apply sublist_nil_l | simpl; lia]|].
    destruct (extract self name mode diff) as [found|e] eqn:Hextract;
      [|split_and!; [constructor | apply sublist_nil_l | simpl; lia]].
    destruct (IH diffs) as (Hexcl & Hsub & Hlen).
    rewrite (generated_eta (files_loop self names diffs)). cbn [fst].
    destruct found as [f|]; cbn [option_list app].
    + apply extract_commit_file_origin in Hextract as (Hf & <- & <-).
      split_and!.
      * by constructor.
      * csimpl. by apply sublist_skip.
      * simpl. lia.
    + split_and!; [done | by apply sublist_cons | simpl; lia].
  - split_and!; [constructor | apply sublist_nil_l | simpl; lia].
Qed.

(** X6: the units of a commit are units of its header records: their
    names and filemodes are those of records that parsed, in the order
    of the header; there is at most one unit per body chunk, and no
    unit has an excluded file name. *)
Theorem get_files_origin self header rest :
  split_once (NUL :: lit "diff ") (patch self) = [header; rest] ->
  Forall (fun f => is_filepath_excluded (filename f) (exclusion_regexes self) = false)
         (files_of self).1
  /\ ((fun f => Ok (filename f, filemode f)) <$> (files_of self).1)
       `sublist_of` _parse_patch_header header
  /\ length (files_of self).1 <= length (diff_marker_split rest).
Proof.
  intros Hsplit. unfold get_files. rewrite Hsplit.
  rewrite (generated_eta (files_loop self _ _)). cbn [fst].
  apply get_files_loop_origin.
Qed.

(** X7: a patch in which the marker NUL ["diff "] does not occur has no
    diff: nothing is yielded and nothing is raised, even when its
    header could not be parsed. *)
Theorem get_files_without_diff self :
  (forall i, startswith (NUL :: lit "diff ") (drop i (patch self)) = false) ->
  files_of self = ([], None)
  /\ Commit_files is_filepath_excluded MAX_FILE_SIZE self = Ok [].
Proof.
  intros Habsent.
  assert (Hget : files_of self = ([], None)).
  { unfold get_files, split_once.
    destruct (str_find _ (patch self)) as [i|] eqn:Hfind; [|done].
    apply str_find_startswith in Hfind. by rewrite Habsent in Hfind. }
  split; [done|]. unfold Commit_files. by rewrite Hget.
Qed.
Local Abbreviation emitted_entry :=
  (emitted_file is_filepath_excluded MAX_FILE_SIZE).

Lemma get_files_loop_complete self (entries : list patch_entry) :
  (0 <= MAX_FILE_SIZE < 2 ^ 48)%Z ->
  Forall (emitted_entry self) entries ->
  files_loop self ((fun e => Ok (entry_name e, entry_mode e)) <$> entries)
    (entry_diff <$> entries)
  = (entry_file <$> entries, None).
Proof.
  intros Hmax. induction 1 as [|e entries He _ IH]; [done|].
  destruct He as (Hexcluded & Hmarker & Hfirst & size & Hsize & Hfits).
  csimpl. cbn [get_files_loop]. unfold entry_diff at 1.
  rewrite (extract_commit_file_exact self _ _ _ _ size Hmax Hexcluded Hmarker
             Hfirst Hsize).
  rewrite decide_True by done. by rewrite IH.
Qed.

(** X23: a patch whose header records all parse and whose body chunks
    pair up with them, each chunk made of extended headers and a
    document that starts at the first hunk marker and is within the
    size limit, no file being excluded, yields one unit per file, in
    the order of the header, with that document, name and filemode;
    [Commit.files] is the dict of these units. *)
Theorem get_files_complete self header rest (entries : list patch_entry) :
  (0 <= MAX_FILE_SIZE < 2 ^ 48)%Z ->
  split_once (NUL :: lit "diff ") (patch self) = [header; rest] ->
  _parse_patch_header header
    = (fun e => Ok (entry_name e, entry_mode e)) <$> entries ->
  diff_marker_split rest = entry_diff <$> entries ->
  Forall (emitted_entry self) entries ->
  files_of self = (entry_file <$> entries, None)
  /\ Commit_files is_filepath_excluded MAX_FILE_SIZE self
     = Ok (dict_of_files (entry_file <$> entries)).
Proof.
  intros Hmax Hsplit Hheader Hdiffs Hentries.
  assert (Hget : files_of self = (entry_file <$> entries, None)).
  { unfold get_files. rewrite Hsplit, Hheader, Hdiffs.
    by rewrite (get_files_loop_complete self entries Hmax Hentries). }
  split; [done|]. unfold Commit_files. by rewrite Hget.
Qed.
End ExtractionProperties.

Lemma extract_commit_file_first_hunk_witness :
  extract_commit_file (fun _ _ => false) 1048576 (sample_commit (lit "A"))
    (lit "a.py") MODIFY (sample_diff_headers ++ LF :: sample_document)
  = Ok (Some (CommitFile sample_document (lit "a.py") MODIFY)).
Proof.
  rewrite (extract_commit_file_first_hunk (fun _ _ => false) 1048576
             (sample_commit (lit "A")) (lit "a.py") MODIFY
             sample_diff_headers sample_document 30).
  - reflexivity.
  - lia.
  - reflexivity.
  - reflexivity.
  - intros j Hj. apply (str_find_first _ _ 71 j); [vm_compute; reflexivity|].
    exact Hj.
  - reflexivity.
Defined.

Lemma get_files_origin_witness :
  exists header rest,
    split_once (NUL :: lit "diff ") (patch (sample_commit (lit "A"))) = [header; rest]
    /\ ((fun f => Ok (filename f, filemode f))
          <$> (sample_get_files 1048576 (lit "A")).1)
         `sublist_of` _parse_patch_header header.
Proof.
  eexists _, _. split; [vm_compute; reflexivity|].
  refine (proj1 (proj2 (get_files_origin (fun _ _ => false) 1048576
                          (sample_commit (lit "A")) _ _ _))).
  vm_compute. reflexivity.
Defined.

Lemma get_files_without_diff_witness :
  get_files (fun _ _ => false) 1048576 sample_commit_without_diff = ([], None).
Proof.
  apply get_files_without_diff. intros i. apply str_find_None.
  vm_compute. reflexivity.
Defined.

(** ** Collections *)

Lemma dict_set_fresh {V} (k : pystr) (v : V) (d : dict V) :
  k ∉ dict_keys d -> dict_set k v d = d ++ [(k, v)].
Proof.
  unfold dict_keys. induction d as [|[k' v'] d IH]; intros Hnot; [done|].
  csimpl in Hnot. apply not_elem_of_cons in Hnot as [Hne Hnot].
  cbn [dict_set]. case_decide; [congruence|]. by rewrite (IH Hnot).
Qed.

(** Files with distinct names go into the dict one after the other. *)
Lemma dict_of_files_distinct (files : list File) :
  NoDup (filename <$> files) ->
  dict_of_files files = (fun f => (filename f, f)) <$> files.
Proof.
  induction files as [|f files IH] using rev_ind; intros Hnd; [done|].
  rewrite fmap_app in Hnd. apply NoDup_app in Hnd as (Hfiles & Hfresh & _).
  rewrite dict_of_files_snoc, (IH Hfiles), fmap_app. apply dict_set_fresh.
  unfold dict_keys. rewrite <- list_fmap_compose. intros Hin.
  apply (Hfresh _ Hin). csimpl. apply list_elem_of_here.
Qed.

Lemma dict_of_files_distinct_values (files : list File) :
  NoDup (filename <$> files) -> dict_values (dict_of_files files) = files.
Proof.
  intros Hnd. rewrite (dict_of_files_distinct _ Hnd). unfold dict_values.
  rewrite <- list_fmap_compose. apply list_fmap_id.
Qed.

Lemma filter_names_NoDup (p : File -> bool) (files : list File) :
  NoDup (filename <$> files) -> NoDup (filename <$> List.filter p files).
Proof.
  induction files as [|f files IH]; [done|]. csimpl.
  intros [Hf Hnd]%NoDup_cons. destruct (p f); csimpl; [|by apply IH].
  apply NoDup_cons. split; [|by apply IH].
  intros (g & Hname & Hin)%list_elem_of_fmap. apply Hf.
  apply list_elem_of_fmap. exists g. split; [done|].
  apply list_elem_of_In. apply list_elem_of_In, filter_In in Hin. tauto.
Qed.

Lemma filter_filter_and {A} (p q : A -> bool) (l : list A) :
  List.filter q (List.filter p l) = List.filter (fun x => p x && q x) l.
Proof.
  induction l as [|x l IH]; [done|]. simpl.
  destruct (p x); simpl; [|done]. destruct (q x); by rewrite IH.
Qed.

(** X8: filtering a collection keeps exactly the units accepted by the
    filter, in their order. *)
Theorem apply_filter_units (self : Files) (filter_func : File -> bool) :
  NoDup (filename <$> dict_values (Files_files self)) ->
  dict_values (Files_files (apply_filter self filter_func))
  = List.filter filter_func (dict_values (Files_files self)).
Proof.
  intros Hnd. unfold apply_filter, new_Files, Files_files at 1. simpl.
  apply dict_of_files_distinct_values. by apply filter_names_NoDup.
Qed.

Lemma apply_filter_units_witness :
  filename <$> dict_values
    (Files_files (apply_filter (new_Files (sample_files 4))
                    (fun f => bool_decide (filename f <> lit "file2"))))
  = [lit "file0"; lit "file1"; lit "file3"].
Proof.
  rewrite apply_filter_units; [reflexivity|]. apply new_Files_unique.
Defined.

(** X9: two filters in a row are the filter by both conditions. *)
Theorem apply_filter_twice (self : Files) (first second : File -> bool) :
  NoDup (filename <$> dict_values (Files_files self)) ->
  apply_filter (apply_filter self first) second
  = apply_filter self (fun f => first f && second f).
Proof.
  intros Hnd. unfold apply_filter at 1.
  pose proof (Hvalues := dict_of_files_distinct_values
                (List.filter first (dict_values (Files_files self)))
                (filter_names_NoDup first _ Hnd)).
  unfold apply_filter at 1, new_Files at 2, Files_files at 1. simpl.
  rewrite Hvalues, filter_filter_and. reflexivity.
Qed.

Lemma apply_filter_twice_witness :
  apply_filter
    (apply_filter (new_Files (sample_files 4))
       (fun f => bool_decide (filename f <> lit "file2")))
    (fun f => bool_decide (filename f <> lit "file0"))
  = apply_filter (new_Files (sample_files 4))
      (fun f => bool_decide (filename f <> lit "file2")
                && bool_decide (filename f <> lit "file0")).
Proof. apply apply_filter_twice. apply new_Files_unique. Defined.

(** X10: the units of a collection are listed by file name in the
    order in which the names first appear in the list it is built
    from, each name once. *)
Theorem new_Files_order (files : list File) :
  filename <$> dict_values (Files_files (new_Files files))
  = reverse (remove_dups (reverse (filename <$> files))).
Proof.
  unfold Files_files, new_Files. simpl. rewrite dict_of_files_filenames.
  induction files as [|f files IH] using rev_ind; [done|].
  rewrite dict_of_files_snoc, dict_keys_set, IH.
  rewrite fmap_app, reverse_app. simpl.
  destruct (decide_rel elem_of (filename f) (reverse (filename <$> files)))
    as [Hin|Hnot].
  - rewrite decide_True; [done|]. by apply elem_of_reverse, elem_of_remove_dups.
  - rewrite decide_False; [by rewrite reverse_cons|].
    by rewrite elem_of_reverse, elem_of_remove_dups.
Qed.

Lemma dict_of_files_values_elem (files : list File) (g : File) :
  g ∈ dict_values (dict_of_files files) -> g ∈ files.
Proof.
  unfold dict_values. intros ([k v] & -> & Hin)%list_elem_of_fmap. simpl.
  apply (dict_get_elem_of _ _ _ (dict_of_files_keys_NoDup files)) in Hin.
  rewrite dict_of_files_get in Hin. apply last_Some_elem_of in Hin.
  unfold named in Hin. apply list_elem_of_In, filter_In in Hin as [Hin _].
  by apply list_elem_of_In.
Qed.

Section RelativeToProperties.
Context {Path : Type}.
Variable path_relative_to : pystr -> Path -> result pystr.

Local Abbreviation rewrite_each := (relative_to_each Path path_relative_to).
Local Abbreviation rewrite_files := (Files_relative_to Path path_relative_to).

Lemma relative_to_each_ok (files rewritten : list File) (root_path : Path) :
  rewrite_each files root_path = Ok rewritten ->
  Forall2 (fun f g =>
             path_relative_to (filename f) root_path = Ok (filename g)
             /\ document g = document f /\ filemode g = FILE)
          files rewritten.
Proof.
  revert rewritten. induction files as [|f files IH]; intros rewritten; simpl.
  - intros [= <-]. constructor.
  - unfold File_relative_to.
    destruct (path_relative_to (filename f) root_path) as [name|e] eqn:Hname;
      [|done]. simpl.
    destruct (rewrite_each files root_path) as [rest|e]; [|done]. simpl.
    intros [= <-]. constructor; [|by apply IH]. by rewrite Hname.
Qed.

Lemma relative_to_each_raise (before after : list File) (f : File)
    (root_path : Path) (e : exn) :
  Forall (fun g => exists name, path_relative_to (filename g) root_path = Ok name)
         before ->
  path_relative_to (filename f) root_path = Raise e ->
  rewrite_each (before ++ f :: after) root_path = Raise e.
Proof.
  intros Hbefore Hf. induction Hbefore as [|g before [name Hg] _ IH]; simpl.
  - unfold File_relative_to. by rewrite Hf.
  - unfold File_relative_to at 1. rewrite Hg. simpl. by rewrite IH.
Qed.

(** X11: a collection rewritten relative to a root holds plain files
    only: every unit has filemode FILE, whatever the filemode of the
    unit it comes from, and carries the document of a unit of the
    original collection under its rewritten name. *)
Theorem Files_relative_to_units (self rewritten : Files) (root_path : Path) :
  rewrite_files self root_path = Ok rewritten ->
  forall g, g ∈ dict_values (Files_files rewritten) ->
    filemode g = FILE
    /\ exists f, f ∈ dict_values (Files_files self)
                 /\ document g = document f
                 /\ path_relative_to (filename f) root_path = Ok (filename g).
Proof.
  unfold Files_relative_to.
  destruct (rewrite_each _ root_path) as [files|e] eqn:Heach; [|done]. simpl.
  intros [= <-] g Hg. apply dict_of_files_values_elem in Hg.
  apply relative_to_each_ok in Heach.
  apply list_elem_of_lookup in Hg as [i Hi].
  destruct (Forall2_lookup_r _ _ _ _ _ Heach Hi) as (f & Hf & Hname & Hdoc & Hmode).
  split; [done|]. exists f. split_and!; try done.
  apply list_elem_of_lookup. by exists i.
Qed.

(** X12: rewriting is all or nothing: when the path of one unit cannot
    be made relative to the root, and those of the units before it
    can, the call raises the error of that unit and no collection is
    built. *)
Theorem Files_relative_to_raises (self : Files) (before after : list File)
    (f : File) (root_path : Path) (e : exn) :
  dict_values (Files_files self) = before ++ f :: after ->
  Forall (fun g => exists name, path_relative_to (filename g) root_path = Ok name)
         before ->
  path_relative_to (filename f) root_path = Raise e ->
  rewrite_files self root_path = Raise e.
Proof.
  intros Hunits Hbefore Hf. unfold Files_relative_to.
  by rewrite Hunits, (relative_to_each_raise _ _ _ _ _ Hbefore Hf).
Qed.
End RelativeToProperties.

Lemma Files_relative_to_units_witness :
  exists rewritten,
    Files_relative_to unit sample_relative_to
      (new_Files [CommitFile (lit "key = 1") (lit "src/a.py") MODIFY]) tt
    = Ok rewritten
    /\ forall g, g ∈ dict_values (Files_files rewritten) -> filemode g = FILE.
Proof.
  eexists. split; [reflexivity|]. intros g Hg.
  apply (Files_relative_to_units sample_relative_to
           (new_Files [CommitFile (lit "key = 1") (lit "src/a.py") MODIFY])
           _ tt eq_refl g Hg).
Defined.

Lemma Files_relative_to_raises_witness :
  Files_relative_to unit sample_relative_to
    (new_Files [new_File (lit "key = 1") (lit "src/a.py");
                new_File (lit "key = 2") (lit "docs/b.md");
                new_File (lit "key = 3") (lit "src/c.py")]) tt
  = Raise (ValueError (lit "docs/b.md is not in the subpath of 'src'")).
Proof.
  apply (Files_relative_to_raises sample_relative_to _
           [new_File (lit "key = 1") (lit "src/a.py")]
           [new_File (lit "key = 3") (lit "src/c.py")]
           (new_File (lit "key = 2") (lit "docs/b.md"))).
  - reflexivity.
  - constructor; [by eexists | constructor].
  - reflexivity.
Defined.

(** ** More on the scan loop *)

Lemma chunks_of_concat {A} (limit : nat) (l : list A) (chunks : list (list A)) :
  chunks_of limit l = Ok chunks -> concat chunks = l.
Proof.
  destruct limit as [|limit]; [done|].
  rewrite chunks_of_ok by lia. intros [= <-].
  transitivity (take ((length l + S limit - 1) / S limit * S limit) l).
  - rewrite <- chunks_concat_take, <- list_fmap_compose. f_equal.
    apply list_fmap_ext. intros _ k _. simpl. unfold slice. f_equal. lia.
  - apply take_ge. apply py_range_covers. lia.
Qed.

Lemma chunks_of_length {A} (limit : nat) (l : list A) (chunks : list (list A)) :
  chunks_of limit l = Ok chunks ->
  length chunks = (length l + limit - 1) / limit.
Proof.
  destruct limit as [|limit]; [done|].
  rewrite chunks_of_ok by lia. intros [= <-].
  by rewrite length_fmap, length_seq.
Qed.

Section ScanFurther.
Context {ScanResult PolicyBreak IgnoredMatch Cache Headers : Type}.
Variable MULTI_DOCUMENT_LIMIT : nat.
Variable has_policy_breaks : ScanResult -> bool.
Variable policy_breaks : ScanResult -> list PolicyBreak.
Variable remove_ignored_from_result :
  ScanResult -> list IgnoredMatch -> ScanResult.
Variable remove_results_from_ignore_detectors :
  ScanResult -> option (list pystr) -> ScanResult.
Variable cache_purge : Cache -> Cache.
Variable cache_add_found_policy_break : PolicyBreak -> pystr -> Cache -> Cache.
Variable cache_save : Cache -> Cache.
Variable handle_scan_chunk_error :
  ScanResponse ScanResult -> list ScanDict -> option exn.
Variable multi_content_scan : list ScanDict -> Headers -> Future ScanResult.
Variable matches_ignore : list IgnoredMatch.
Variable ignored_detectors : option (list pystr).

Local Abbreviation record :=
  (record_scan_results has_policy_breaks policy_breaks remove_ignored_from_result
     remove_results_from_ignore_detectors cache_add_found_policy_break
     matches_ignore ignored_detectors).
Local Abbreviation step :=
  (scan_completed has_policy_breaks policy_breaks remove_ignored_from_result
     remove_results_from_ignore_detectors cache_add_found_policy_break
     handle_scan_chunk_error matches_ignore ignored_detectors).
Local Abbreviation loop :=
  (scan_all_completed has_policy_breaks policy_breaks remove_ignored_from_result
     remove_results_from_ignore_detectors cache_add_found_policy_break
     handle_scan_chunk_error matches_ignore ignored_detectors).
Local Abbreviation results_of_chunk :=
  (chunk_results has_policy_breaks remove_ignored_from_result
     remove_results_from_ignore_detectors matches_ignore ignored_detectors).
Local Abbreviation results_of :=
  (completed_results has_policy_breaks remove_ignored_from_result
     remove_results_from_ignore_detectors matches_ignore ignored_detectors).
Local Abbreviation settled := (settles handle_scan_chunk_error).
Local Abbreviation scan_files :=
  (Files_scan MULTI_DOCUMENT_LIMIT has_policy_breaks policy_breaks
     remove_ignored_from_result remove_results_from_ignore_detectors
     cache_purge cache_add_found_policy_break cache_save
     handle_scan_chunk_error multi_content_scan).
Local Abbreviation register :=
  (foldl (fun cache (entry : PolicyBreak * pystr) =>
            cache_add_found_policy_break entry.1 entry.2 cache)).
Local Abbreviation found := (found_policy_breaks policy_breaks).

Implicit Types st : ScanState ScanResult Cache.
Implicit Types chunk : list ScanDict.

Lemma found_policy_breaks_app (rs rs' : list (Result ScanResult)) :
  found (rs ++ rs') = found rs ++ found rs'.
Proof. unfold found_policy_breaks. apply bind_app. Qed.

Lemma register_policy_breaks (cache : Cache) (name : pystr)
    (breaks : list PolicyBreak) :
  foldl (fun c policy_break => cache_add_found_policy_break policy_break name c)
        cache breaks
  = register cache ((fun policy_break => (policy_break, name)) <$> breaks).
Proof.
  revert cache. induction breaks as [|b breaks IH]; intros cache; [done|].
  csimpl. apply IH.
Qed.

Lemma record_scan_results_cache chunk index scan_results st st' :
  record chunk index scan_results st = Ok st' ->
  st_cache st'
  = register (st_cache st) (found (results_of_chunk (drop index chunk) scan_results)).
Proof.
  revert index st. induction scan_results as [|scanned rest IH]; intros index st.
  - simpl. intros [= <-]. unfold chunk_results. by rewrite zip_with_nil_r.
  - cbn [record_scan_results]. unfold chunk_results.
    destruct (has_policy_breaks _) eqn:Hbreaks.
    + destruct (chunk !! index) as [file|] eqn:Hfile; [|done].
      intros Hrec. apply IH in Hrec as ->. simpl.
      rewrite (drop_S _ _ _ Hfile). csimpl. rewrite Hbreaks. csimpl.
      unfold found_policy_breaks. csimpl. rewrite foldl_app.
      by rewrite register_policy_breaks.
    + intros Hrec. apply IH in Hrec as ->. do 2 f_equal.
      destruct (chunk !! index) as [file|] eqn:Hfile.
      * rewrite (drop_S _ _ _ Hfile). csimpl. by rewrite Hbreaks.
      * apply lookup_ge_None in Hfile. rewrite !drop_ge by lia. done.
Qed.

Lemma scan_completed_cache st st' completed :
  step st completed = Ok st' ->
  st_cache st' = register (st_cache st) (found (results_of completed)).
Proof.
  destruct completed as [chunk future]. unfold scan_completed, completed_results.
  simpl.
  destruct future as [[code scan_results | code detail] | exception]; simpl.
  - destruct (success (MultiScanResult code scan_results)); simpl.
    + intros Hrec. by apply record_scan_results_cache in Hrec as ->.
    + destruct (handle_scan_chunk_error _ _); [done|]. by intros [= <-].
  - destruct (success (Detail code detail)); simpl; [done|].
    destruct (handle_scan_chunk_error _ _); [done|]. by intros [= <-].
  - unfold success. simpl.
    destruct (handle_scan_chunk_error _ _); [done|]. by intros [= <-].
Qed.

Lemma scan_all_completed_cache st st' completed :
  loop st completed = Ok st' ->
  st_cache st'
  = register (st_cache st) (found (concat (results_of <$> completed))).
Proof.
  revert st. induction completed as [|c completed IH]; intros st.
  - simpl. by intros [= <-].
  - cbn [scan_all_completed]. destruct (step st c) as [st1|e] eqn:Hstep; [|done].
    simpl. intros Hloop. apply IH in Hloop as ->.
    apply scan_completed_cache in Hstep as ->.
    csimpl. by rewrite found_policy_breaks_app, foldl_app.
Qed.

(** What a scan that returned is made of. *)
Lemma Files_scan_ok (self : Files) (cache : Cache) (headers : Headers)
    (as_completed : list nat) outcome cache' progress :
  scan_files self cache matches_ignore headers ignored_detectors as_completed
    = Ok (outcome, cache', progress) ->
  exists chunks,
    chunks_of MULTI_DOCUMENT_LIMIT (scannable_list self) = Ok chunks
    /\ results outcome =
         concat (results_of <$>
                   omap (fun i => future_to_scan multi_content_scan headers chunks !! i)
                     as_completed)
    /\ errors outcome =
         concat (completed_errors <$>
                   omap (fun i => future_to_scan multi_content_scan headers chunks !! i)
                     as_completed)
    /\ progress =
         (omap (fun i => future_to_scan multi_content_scan headers chunks !! i)
            as_completed).*1
    /\ cache' = cache_save (register (cache_purge cache) (found (results outcome))).
Proof.
  unfold Files_scan.
  destruct (chunks_of _ _) as [chunks|e]; [|done]. simpl.
  destruct (loop _ _) as [st'|e] eqn:Hloop; [|done]. simpl.
  intros [= <- <- <-]. exists chunks. split; [done|].
  pose proof (scan_all_completed_cache _ _ _ Hloop) as Hcache.
  apply (scan_all_completed_ok has_policy_breaks policy_breaks
           remove_ignored_from_result remove_results_from_ignore_detectors
           cache_add_found_policy_break handle_scan_chunk_error
           matches_ignore ignored_detectors) in Hloop as (Hr & He & Hp).
  simpl in *. split_and!; try done. by rewrite Hcache, Hr.
Qed.

(** X13: the cache handed back by a scan is the purged cache in which
    the policy breaks of the reported results, and only those, were
    registered under the file name of their result, in the order of
    the results, and which was then saved. *)
Theorem Files_scan_cache (self : Files) (cache : Cache) (headers : Headers)
    (as_completed : list nat) outcome cache' progress :
  scan_files self cache matches_ignore headers ignored_detectors as_completed
    = Ok (outcome, cache', progress) ->
  cache' =
    cache_save
      (foldl (fun cache (entry : PolicyBreak * pystr) =>
                cache_add_found_policy_break entry.1 entry.2 cache)
             (cache_purge cache)
             (found_policy_breaks policy_breaks (results outcome))).
Proof.
  intros Hscan. by destruct (Files_scan_ok _ _ _ _ _ _ _ Hscan) as (? & _ & _ & _ & _ & ->).
Qed.

Lemma chunk_results_elem chunk scan_results r :
  r ∈ results_of_chunk chunk scan_results ->
  has_policy_breaks (scan r) = true
  /\ exists file, file ∈ chunk
       /\ content r = sd_document file
       /\ r_filename r = sd_filename file
       /\ r_filemode r = sd_filemode file.
Proof.
  unfold chunk_results. intros ([file scanned] & Hin & Hr)%list_elem_of_omap.
  destruct (has_policy_breaks _) eqn:Hbreaks; [|done].
  injection Hr as <-. simpl. split; [done|].
  exists file. split; [|done]. by apply elem_of_zip_l in Hin.
Qed.

(** X14: every result of a scan that returned is about a unit of the
    collection: it carries the document, file name and filemode of one
    of its payloads, and its scan result still has policy breaks after
    the ignore rules were applied. *)
Theorem Files_scan_results_sound (self : Files) (cache : Cache) (headers : Headers)
    (as_completed : list nat) outcome cache' progress :
  scan_files self cache matches_ignore headers ignored_detectors as_completed
    = Ok (outcome, cache', progress) ->
  forall r, r ∈ results outcome ->
    has_policy_breaks (scan r) = true
    /\ exists file, file ∈ scannable_list self
         /\ content r = sd_document file
         /\ r_filename r = sd_filename file
         /\ r_filemode r = sd_filemode file.
Proof.
  intros Hscan r Hr.
  destruct (Files_scan_ok _ _ _ _ _ _ _ Hscan) as (chunks & Hchunks & Hres & _).
  rewrite Hres in Hr. apply list_elem_of_In, in_concat in Hr as (rs & Hrs & Hr).
  apply list_elem_of_In in Hr.
  apply list_elem_of_In, list_elem_of_fmap in Hrs as ([chunk future] & -> & Hc).
  apply list_elem_of_omap in Hc as (i & _ & Hi).
  unfold future_to_scan in Hi. rewrite list_lookup_fmap in Hi.
  destruct (chunks !! i) as [chunk'|] eqn:Hchunk; [|done].
  simpl in Hi. injection Hi as <- <-.
  unfold completed_results in Hr. simpl in Hr.
  destruct (multi_content_scan chunk' headers) as [[code rs|]|]; simpl in Hr;
    try (by apply elem_of_nil in Hr).
  destruct (success _); [|by apply elem_of_nil in Hr].
  apply chunk_results_elem in Hr as (Hbreaks & file & Hfile & Hfields).
  split; [done|]. exists file. split; [|done].
  rewrite <- (chunks_of_concat _ _ _ Hchunks).
  apply list_elem_of_In, in_concat. exists chunk'.
  split; apply list_elem_of_In; [|done]. apply list_elem_of_lookup. by exists i.
Qed.

(** X15: only a call that raised adds to the errors: when every call
    returns a response, be it a failure reported by the service, the
    errors of a scan that returned are empty. *)
Theorem Files_scan_no_error_without_exception (self : Files) (cache : Cache)
    (headers : Headers) (as_completed : list nat) outcome cache' progress :
  (forall chunk, exists response,
     multi_content_scan chunk headers = Returned response) ->
  scan_files self cache matches_ignore headers ignored_detectors as_completed
    = Ok (outcome, cache', progress) ->
  errors outcome = [].
Proof.
  intros Hreturned Hscan.
  destruct (Files_scan_ok _ _ _ _ _ _ _ Hscan) as (chunks & _ & _ & -> & _).
  apply concat_fmap_nil. intros j [chunk future] Hj.
  apply list_elem_of_lookup_2, list_elem_of_omap in Hj as (i & _ & Hi).
  unfold future_to_scan in Hi. rewrite list_lookup_fmap in Hi.
  destruct (chunks !! i) as [chunk'|]; [|done]. simpl in Hi. injection Hi as <- <-.
  unfold completed_errors. simpl. by destruct (Hreturned chunk') as [response ->].
Qed.

(** X16: the progress callback is called once for every chunk, whether
    its call succeeded or not: when every call completes, the chunks
    reported are the chunks of the payload list, as many as the limit
    makes. *)
Theorem Files_scan_progress (self : Files) (cache : Cache) (headers : Headers)
    (as_completed : list nat) (chunks : list (list ScanDict))
    outcome cache' progress :
  chunks_of MULTI_DOCUMENT_LIMIT (scannable_list self) = Ok chunks ->
  as_completed ≡ₚ seq 0 (length chunks) ->
  scan_files self cache matches_ignore headers ignored_detectors as_completed
    = Ok (outcome, cache', progress) ->
  progress ≡ₚ chunks
  /\ length progress
     = (length (scannable_list self) + MULTI_DOCUMENT_LIMIT - 1) / MULTI_DOCUMENT_LIMIT.
Proof.
  intros Hchunks Hperm Hscan.
  destruct (Files_scan_ok _ _ _ _ _ _ _ Hscan) as (chunks' & Hchunks' & _ & _ & -> & _).
  rewrite Hchunks in Hchunks'. injection Hchunks' as <-.
  assert (Hprogress :
            (omap (fun i => future_to_scan multi_content_scan headers chunks !! i)
               as_completed).*1 ≡ₚ chunks).
  { rewrite as_completed_Permutation.
    - unfold future_to_scan. rewrite <- list_fmap_compose. by rewrite list_fmap_id.
    - unfold future_to_scan. by rewrite length_fmap. }
  split; [done|]. rewrite Hprogress. by apply chunks_of_length.
Qed.
Lemma scan_all_completed_raise st before completed after e :
  Forall settled before ->
  (forall st1, step st1 completed = Raise e) ->
  loop st (before ++ completed :: after) = Raise e.
Proof.
  intros Hbefore Hraise. revert st.
  induction Hbefore as [|c before Hc _ IH]; intros st.
  - cbn [app scan_all_completed]. by rewrite Hraise.
  - cbn [app scan_all_completed].
    destruct (scan_completed_total has_policy_breaks policy_breaks
                remove_ignored_from_result remove_results_from_ignore_detectors
                cache_add_found_policy_break handle_scan_chunk_error
                matches_ignore ignored_detectors st c Hc) as [st1 ->].
    simpl. apply IH.
Qed.

Lemma Files_scan_raise (self : Files) (cache : Cache) (headers : Headers)
    (chunks : list (list ScanDict)) (before after : list nat) (i : nat)
    chunk (e : exn) :
  chunks_of MULTI_DOCUMENT_LIMIT (scannable_list self) = Ok chunks ->
  Forall settled
    (omap (fun j => future_to_scan multi_content_scan headers chunks !! j) before) ->
  chunks !! i = Some chunk ->
  (forall st, step st (chunk, multi_content_scan chunk headers) = Raise e) ->
  scan_files self cache matches_ignore headers ignored_detectors
    (before ++ i :: after) = Raise e.
Proof.
  intros Hchunks Hbefore Hi Hraise. unfold Files_scan. rewrite Hchunks. simpl.
  rewrite omap_app. csimpl. unfold future_to_scan at 2.
  rewrite list_lookup_fmap, Hi. simpl.
  by rewrite (scan_all_completed_raise _ _ _ _ e Hbefore Hraise).
Qed.

(** X17: when the error handler raises for a chunk whose call failed or
    was rejected, the scan stops there and raises the same exception:
    the results and errors gathered from the chunks completed before
    are not returned. *)
Theorem Files_scan_handler_raises (self : Files) (cache : Cache) (headers : Headers)
    (chunks : list (list ScanDict)) (before after : list nat) (i : nat)
    chunk (e : exn) :
  chunks_of MULTI_DOCUMENT_LIMIT (scannable_list self) = Ok chunks ->
  Forall settled
    (omap (fun j => future_to_scan multi_content_scan headers chunks !! j) before) ->
  chunks !! i = Some chunk ->
  success (scan_of_future (multi_content_scan chunk headers)) = false ->
  handle_scan_chunk_error (scan_of_future (multi_content_scan chunk headers)) chunk
    = Some e ->
  scan_files self cache matches_ignore headers ignored_detectors
    (before ++ i :: after) = Raise e.
Proof.
  intros Hchunks Hbefore Hi Hfailure Hhandler.
  apply (Files_scan_raise _ _ _ chunks _ _ _ chunk); try done.
  intros st. unfold scan_completed.
  destruct (multi_content_scan chunk headers) as [response|exception];
    simpl in *.
  - by rewrite Hfailure, Hhandler.
  - unfold success. simpl. by rewrite Hhandler.
Qed.

Lemma record_scan_results_index_error chunk index scan_results st j scanned :
  scan_results !! j = Some scanned ->
  length chunk <= index + j ->
  has_policy_breaks
    (remove_results_from_ignore_detectors
       (remove_ignored_from_result scanned matches_ignore) ignored_detectors) = true ->
  record chunk index scan_results st
  = Raise (IndexError (lit "list index out of range")).
Proof.
  revert index st j. induction scan_results as [|first rest IH];
    intros index st j Hj Hlen Hbreaks; [done|].
  cbn [record_scan_results]. destruct j as [|j]; simpl in Hj.
  - injection Hj as ->. rewrite Hbreaks.
    by rewrite (proj2 (lookup_ge_None chunk index)) by lia.
  - destruct (has_policy_breaks
                (remove_results_from_ignore_detectors
                   (remove_ignored_from_result first matches_ignore)
                   ignored_detectors)).
    + destruct (chunk !! index); [|done]. apply (IH _ _ j); [done|lia|done].
    + apply (IH _ _ j); [done|lia|done].
Qed.

(** X18: a successful response that holds more results than the chunk
    has documents makes the scan raise an index error as soon as one of
    the results in excess has policy breaks. *)
Theorem Files_scan_index_error (self : Files) (cache : Cache) (headers : Headers)
    (chunks : list (list ScanDict)) (before after : list nat) (i : nat)
    chunk scan_results (j : nat) scanned :
  chunks_of MULTI_DOCUMENT_LIMIT (scannable_list self) = Ok chunks ->
  Forall settled
    (omap (fun j => future_to_scan multi_content_scan headers chunks !! j) before) ->
  chunks !! i = Some chunk ->
  multi_content_scan chunk headers
    = Returned (MultiScanResult (Some 200%Z) scan_results) ->
  scan_results !! j = Some scanned ->
  length chunk <= j ->
  has_policy_breaks
    (remove_results_from_ignore_detectors
       (remove_ignored_from_result scanned matches_ignore) ignored_detectors) = true ->
  scan_files self cache matches_ignore headers ignored_detectors
    (before ++ i :: after)
  = Raise (IndexError (lit "list index out of range")).
Proof.
  intros Hchunks Hbefore Hi Hresponse Hj Hlen Hbreaks.
  apply (Files_scan_raise _ _ _ chunks _ _ _ chunk); try done.
  intros st. unfold scan_completed. rewrite Hresponse. simpl.
  by apply (record_scan_results_index_error _ _ _ _ j scanned).
Qed.

(** X19: a collection without units is scanned without any call: for a
    positive document limit the scan returns no result and no error,
    reports no chunk, and only purges and saves the cache; with a limit
    of zero it raises the error of [range]. *)
Theorem Files_scan_empty (self : Files) (cache : Cache) (headers : Headers)
    (as_completed : list nat) :
  dict_values (Files_files self) = [] ->
  scan_files self cache matches_ignore headers ignored_detectors as_completed
  = match MULTI_DOCUMENT_LIMIT with
    | O => Raise (ValueError (lit "range() arg 3 must not be zero"))
    | S _ => Ok ({| results := []; errors := [] |},
                 cache_save (cache_purge cache), [])
    end.
Proof.
  intros Hempty. unfold Files_scan, scannable_list. rewrite Hempty.
  destruct MULTI_DOCUMENT_LIMIT as [|limit]; [done|].
  rewrite chunks_of_ok by lia. simpl length.
  rewrite Nat.div_small by lia. simpl.
  assert (Hnone : omap (fun i => (@nil (list ScanDict * Future ScanResult)) !! i)
                    as_completed = []).
  { induction as_completed as [|i rest IH]; [done|]. by csimpl. }
  unfold future_to_scan. csimpl. by rewrite Hnone.
Qed.
End ScanFurther.

Lemma Files_scan_cache_witness :
  exists outcome cache' progress,
    sample_scan 2 (lit "none") (sample_files 3) [1; 0]
      = Ok (outcome, cache', progress)
    /\ cache' = [(0, lit "file2"); (0, lit "file0"); (0, lit "file1")].
Proof.
  eassert (Hscan : sample_scan 2 (lit "none") (sample_files 3) [1; 0]
                   = Ok (_, _, _)) by (vm_compute; reflexivity).
  do 3 eexists. split; [exact Hscan|].
  unfold sample_scan in Hscan.
  etrans; [exact (Files_scan_cache _ _ _ _ _ _ _ _ _ _ _ _ _ _ _ _ _ _ _ Hscan)|].
  vm_compute. reflexivity.
Defined.

Lemma Files_scan_results_sound_witness :
  exists outcome cache' progress,
    sample_scan 2 (lit "none") (sample_files 3) [1; 0]
      = Ok (outcome, cache', progress)
    /\ forall r, r ∈ results outcome -> (0 <? scan r) = true.
Proof.
  eassert (Hscan : sample_scan 2 (lit "none") (sample_files 3) [1; 0]
                   = Ok (_, _, _)) by (vm_compute; reflexivity).
  do 3 eexists. split; [exact Hscan|]. intros r Hr.
  unfold sample_scan in Hscan.
  exact (proj1 (Files_scan_results_sound _ _ _ _ _ _ _ _ _ _ _ _ _ _ _ _ _ _ _
                  Hscan r Hr)).
Defined.

Lemma Files_scan_no_error_without_exception_witness :
  exists outcome cache' progress,
    sample_scan_with spec_handle_scan_chunk_error sample_client_unavailable
      2 (sample_files 3) [1; 0]
      = Ok (outcome, cache', progress)
    /\ errors outcome = [].
Proof.
  eassert (Hscan : sample_scan_with spec_handle_scan_chunk_error
                     sample_client_unavailable 2 (sample_files 3) [1; 0]
                   = Ok (_, _, _)) by (vm_compute; reflexivity).
  do 3 eexists. split; [exact Hscan|].
  unfold sample_scan_with in Hscan.
  refine (Files_scan_no_error_without_exception _ _ _ _ _ _ _ _ _ _ _ _ _ _ _ _ _ _ _
            _ Hscan).
  intros chunk. by eexists.
Defined.

Lemma Files_scan_progress_witness :
  exists outcome cache' progress,
    sample_scan 2 (lit "file2") (sample_files 5) [2; 0; 1]
      = Ok (outcome, cache', progress)
    /\ length progress = 3.
Proof.
  eassert (Hscan : sample_scan 2 (lit "file2") (sample_files 5) [2; 0; 1]
                   = Ok (_, _, _)) by (vm_compute; reflexivity).
  do 3 eexists. split; [exact Hscan|].
  unfold sample_scan in Hscan.
  refine (proj2 (Files_scan_progress _ _ _ _ _ _ _ _ _ _ _ _ _ _ _ _
                   [ [sample_payload 0; sample_payload 1];
                     [sample_payload 2; sample_payload 3];
                     [sample_payload 4] ] _ _ _ _ _ Hscan)).
  - vm_compute. reflexivity.
  - simpl. apply (Permutation_cons_append [0; 1] 2).
Defined.

Lemma Files_scan_handler_raises_witness :
  sample_scan_with sample_handler sample_client_unauthorized
    2 (sample_files 3) [0; 1]
  = Raise (OtherError (lit "Invalid API key.")).
Proof.
  unfold sample_scan_with.
  apply Files_scan_handler_raises
    with (before := []) (i := 0) (after := [1])
         (chunks := [ [sample_payload 0; sample_payload 1]; [sample_payload 2] ])
         (chunk := [sample_payload 0; sample_payload 1]).
  - vm_compute. reflexivity.
  - constructor.
  - reflexivity.
  - reflexivity.
  - reflexivity.
Defined.

Lemma Files_scan_index_error_witness :
  sample_scan_with spec_handle_scan_chunk_error sample_client_excess
    2 (sample_files 3) [0; 1]
  = Raise (IndexError (lit "list index out of range")).
Proof.
  unfold sample_scan_with.
  apply Files_scan_index_error
    with (before := []) (i := 0) (after := [1])
         (chunks := [ [sample_payload 0; sample_payload 1]; [sample_payload 2] ])
         (chunk := [sample_payload 0; sample_payload 1])
         (scan_results := [0; 0; 1]) (j := 2) (scanned := 1).
  - vm_compute. reflexivity.
  - constructor.
  - reflexivity.
  - reflexivity.
  - reflexivity.
  - simpl. lia.
  - reflexivity.
Defined.

Lemma Files_scan_empty_witness :
  sample_scan 20 (lit "none") [] [] = Ok ({| results := []; errors := [] |}, [], []).
Proof.
  unfold sample_scan.
  apply (Files_scan_empty 20 (fun scanned => 0 <? scanned)
           (fun scanned => seq 0 scanned) (fun scanned _ => scanned)
           (fun scanned _ => scanned) (fun _ => [])
           (fun policy_break name cache => cache ++ [(policy_break, name)])
           (fun cache => cache) spec_handle_scan_chunk_error
           (sample_client (lit "none")) [] None (new_Files []) [] tt []).
  reflexivity.
Defined.

(** ** Sub-scans with results *)

(** X20: the sub-scans kept by [scans_with_results] can be iterated
    safely: a collection whose sub-scans are the [scans_with_results]
    of another yields its own results followed by all of theirs, and
    ends normally. *)
Theorem get_all_results_of_scans_with_results {ScanResult IaCScanResult}
    (self parent : ScanCollection ScanResult IaCScanResult) :
  scans self = Some (scans_with_results parent) ->
  get_all_results self
  = (own_results self ++ concat (own_results <$> scans_with_results parent), None).
Proof.
  intros Hscans. unfold get_all_results. rewrite Hscans. fold (own_results self).
  assert (Hall : Forall (fun sub => is_Some (sc_results sub))
                   (scans_with_results parent)).
  { unfold scans_with_results. destruct (scans parent) as [[|s ss]|]; try done.
    apply Forall_forall. intros sub Hin.
    apply list_elem_of_In, filter_In in Hin as [_ Htrue].
    by destruct (sc_results sub). }
  destruct (scans_with_results parent) as [|first others] eqn:Hsubs.
  - by rewrite app_nil_r.
  - by rewrite (sub_scan_results_all _ Hall).
Qed.

Lemma get_all_results_of_scans_with_results_witness :
  let result := {| content := lit "key"; r_filemode := NEW;
                   r_filename := lit "a.py"; scan := tt |} in
  let good := mkScanCollection unit unit (lit "c1") (lit "commit")
                (Some {| results := [result]; errors := [] |}) None None None None in
  let bad := mkScanCollection unit unit (lit "c2") (lit "commit")
               None None None None None in
  let range := mkScanCollection unit unit (lit "r") (lit "commit-range")
                 None (Some [good; bad]) None None None in
  let kept := mkScanCollection unit unit (lit "r") (lit "commit-range")
                None (Some (scans_with_results range)) None None None in
  get_all_results kept = ([result], None).
Proof.
  intros result good bad range kept.
  rewrite (get_all_results_of_scans_with_results kept range eq_refl).
  reflexivity.
Defined.

(** ** Filemodes of commit units *)

Lemma parse_patch_header_line_mode (line name : pystr) (mode : Filemode) :
  _parse_patch_header_line line = Ok (name, mode) -> mode <> FILE.
Proof.
  unfold _parse_patch_header_line.
  destruct (split_char NUL (rstrip [NUL] line)) as [|prefix [|first rest]];
    [done..|].
  repeat case_match; intros [= <- <-]; done.
Qed.

(** X21: a unit that comes from a commit never has the filemode FILE of
    a plain file: its filemode is the one read from a status letter. *)
Theorem get_files_filemode {ExclusionRegexes : Type}
    (is_filepath_excluded : pystr -> ExclusionRegexes -> bool)
    (MAX_FILE_SIZE : Z) (self : Commit ExclusionRegexes) (f : File) :
  f ∈ (get_files is_filepath_excluded MAX_FILE_SIZE self).1 ->
  filemode f <> FILE.
Proof.
  intros Hin. unfold get_files in Hin.
  destruct (split_once _ _) as [|header [|rest [|]]] eqn:Hsplit;
    try (by apply elem_of_nil in Hin).
  rewrite (generated_eta (get_files_loop _ _ self _ _)) in Hin. simpl in Hin.
  destruct (get_files_loop_origin is_filepath_excluded MAX_FILE_SIZE self
              (_parse_patch_header header) (diff_marker_split rest))
    as (_ & Hsub & _).
  assert (Hparsed : Ok (filename f, filemode f) ∈ _parse_patch_header header).
  { eapply elem_of_sublist; [|exact Hsub].
    apply list_elem_of_fmap. by exists f. }
  unfold _parse_patch_header in Hparsed.
  apply list_elem_of_fmap in Hparsed as (line & Hline & _).
  symmetry in Hline. by apply parse_patch_header_line_mode in Hline.
Qed.

Lemma get_files_filemode_witness :
  filemode (CommitFile (lit "@@ -0,0 +1 @@" ++ LF :: lit "+token = 3" ++ [LF])
              (lit "b.py") NEW) <> FILE.
Proof.
  apply (get_files_filemode (fun _ _ => false) 1048576 (sample_commit (lit "A"))).
  vm_compute. apply list_elem_of_further, list_elem_of_here.
Defined.

(** ** Totals of a path scan *)

Section IaCScanDictProperties.
Context {Incident OtherKeys : Type}.
Implicit Types entity : EntityDict Incident OtherKeys.
Implicit Types entities : list (EntityDict Incident OtherKeys).

Lemma count_entities acc entities :
  (foldl count_entity acc entities).1
  = acc.1 + length (concat (incidents <$> entities))
  /\ (foldl count_entity acc entities).2
     = acc.2 ++ ((fun entity =>
                    {| entity_keys := entity_keys entity;
                       incidents := incidents entity;
                       entity_total_incidents := Some (length (incidents entity)) |})
                   <$> entities).
Proof.
  revert acc. induction entities as [|entity entities IH]; intros acc.
  - simpl. by rewrite Nat.add_0_r, app_nil_r.
  - cbn [foldl]. destruct (IH (count_entity acc entity)) as [-> ->].
    csimpl. rewrite length_app, <- app_assoc. split; [lia|done].
Qed.

(** X22: in the dict of a path scan, every entity keeps its incidents
    and gets the number of them as its total, the entities stay in
    their order, and the total of the scan is the number of incidents
    of all entities together; without a result the total is zero and
    there is no entity. *)
Theorem create_scan_dict_totals (scan : IaCPathScanCollection Incident OtherKeys) :
  match to_dict scan with
  | Some scan_dict =>
      total_incidents (create_scan_dict scan)
        = Some (length (concat (incidents <$> entities_with_incidents scan_dict)))
      /\ incidents <$> entities_with_incidents (create_scan_dict scan)
         = incidents <$> entities_with_incidents scan_dict
      /\ Forall (fun entity =>
                   entity_total_incidents entity = Some (length (incidents entity)))
                (entities_with_incidents (create_scan_dict scan))
  | None =>
      total_incidents (create_scan_dict scan) = Some 0
      /\ entities_with_incidents (create_scan_dict scan) = []
  end.
Proof.
  unfold create_scan_dict. destruct (to_dict scan) as [scan_dict|]; [|done].
  destruct (count_entities (0, []) (entities_with_incidents scan_dict))
    as [Htotal Hentities].
  cbn [total_incidents entities_with_incidents]. rewrite Htotal, Hentities.
  split_and!.
  - done.
  - simpl. rewrite <- list_fmap_compose. by apply list_fmap_ext.
  - simpl. apply Forall_fmap, Forall_forall. by intros entity _.
Qed.
End IaCScanDictProperties.

Lemma get_files_complete_witness :
  sample_get_files 1048576 (lit "A") = (entry_file <$> sample_entries, None).
Proof.
  unfold sample_get_files.
  eapply (fun header rest H1 H2 H3 H4 =>
            proj1 (get_files_complete (fun _ _ => false) 1048576
                     (sample_commit (lit "A")) header rest sample_entries
                     ltac:(lia) H1 H2 H3 H4)).
  - vm_compute. reflexivity.
  - vm_compute. reflexivity.
  - vm_compute. reflexivity.
  - constructor; [|constructor; [|constructor]].
    + split_and!; [reflexivity | reflexivity | | exists 30%Z; split; [reflexivity|lia]].
      intros j Hj. apply (str_find_first _ _ 71 j); [vm_compute; reflexivity|exact Hj].
    + split_and!; [reflexivity | reflexivity | | exists 25%Z; split; [reflexivity|lia]].
      intros j Hj. apply (str_find_first _ _ 65 j); [vm_compute; reflexivity|exact Hj].
Defined.
